(** * A shallow embedding of the generic repository layer

    The development follows [src/repository/query.go] (the [Filter]
    compiler and the generic by-id and listing functions) and
    [src/repository/repository.go] (the [Repository] facade).

    - Go strings are byte strings: [string] of the Standard Library.
    - Go [int] and [int64] are [Z] (64-bit two's complement, the wrap-around
      is written out where the code multiplies); [uint] is [N].
    - A [map[string]interface{}] is an association list holding the entries
      in the order in which [range] visits them: Go leaves that order to the
      runtime, and the order of the clauses emitted depends on it. The order
      is chosen anew at every [range], so a value of this type stands for
      one run over the map; the theorems quantify over it and none compares
      two runs over the same map.
    - A [*gorm.DB] under construction is the list of the clauses chained onto
      it so far, oldest first.
    - The receiver [f *Filter] is mutated in place: every method takes the
      filter and returns the updated one. *)

From Stdlib Require Import String Ascii ZArith List Lia Bool Sorted.
From Stdlib Require Import DecimalString.
Import ListNotations.

Set Warnings "-register-all".

Local Open Scope list_scope.
Local Open Scope string_scope.
Local Open Scope Z_scope.

(** ** The functions of package [strings] used by the compiler *)

Module GoStrings.

Definition bytes (l : list nat) : string :=
  string_of_list_ascii (map ascii_of_nat l).

(** [asciiSpace]: tab, line feed, vertical tab, form feed, carriage
    return and space. *)
Definition ascii_space (c : ascii) : bool :=
  let n := nat_of_ascii c in
  ((9 <=? n)%nat && (n <=? 13)%nat) || (n =? 32)%nat.

(** The white space of [unicode.IsSpace] above U+007F, as UTF-8:
    U+0085 and U+00A0 take two bytes; U+1680, U+2000..U+200A, U+2028,
    U+2029, U+202F, U+205F and U+3000 take three. *)
Definition space2 (a b : ascii) : bool :=
  (nat_of_ascii a =? 194)%nat &&
  ((nat_of_ascii b =? 133)%nat || (nat_of_ascii b =? 160)%nat).

Definition space3 (a b c : ascii) : bool :=
  let x := nat_of_ascii a in
  let y := nat_of_ascii b in
  let z := nat_of_ascii c in
  ((x =? 225) && (y =? 154) && (z =? 128))%nat
  || ((x =? 226) && (y =? 128) &&
      (((128 <=? z) && (z <=? 138)) || (z =? 168) || (z =? 169) || (z =? 175)))%nat
  || ((x =? 226) && (y =? 129) && (z =? 159))%nat
  || ((x =? 227) && (y =? 128) && (z =? 128))%nat.

(** Drops the white-space runes at the head of a byte list. With
    [fwd = false] the list is a reversed string, so the bytes of a rune
    come last byte first. *)
Fixpoint drop_spaces (fwd : bool) (s : list ascii) : list ascii :=
  match s with
  | [] => []
  | a :: r1 =>
      if ascii_space a then drop_spaces fwd r1 else
      match r1 with
      | [] => s
      | b :: r2 =>
          if (if fwd then space2 a b else space2 b a) then drop_spaces fwd r2 else
          match r2 with
          | [] => s
          | c :: r3 =>
              if (if fwd then space3 a b c else space3 c b a)
              then drop_spaces fwd r3 else s
          end
      end
  end.

(** [strings.TrimSpace]: leading, then trailing white space removed. *)
Definition TrimSpace (s : string) : string :=
  let l := drop_spaces true (list_ascii_of_string s) in
  string_of_list_ascii (rev (drop_spaces false (rev l))).

(** [strings.Split(s, ",")]. *)
Fixpoint split_comma (s : string) : list string :=
  match s with
  | EmptyString => [EmptyString]
  | String c r =>
      if Ascii.eqb c ","%char then EmptyString :: split_comma r
      else match split_comma r with
           | x :: xs => String c x :: xs
           | [] => [String c EmptyString]
           end
  end.

(** [strings.HasPrefix(s, "-")] and [strings.TrimPrefix(s, "-")]. *)
Definition HasPrefix_dash (s : string) : bool :=
  match s with
  | String c _ => Ascii.eqb c "-"%char
  | EmptyString => false
  end.

Definition TrimPrefix_dash (s : string) : string :=
  match s with
  | String c r => if Ascii.eqb c "-"%char then r else s
  | EmptyString => s
  end.

(** [strings.ToLower] on the bytes A..Z. Go also lowers the letters
    above U+007F; no rune lowers to one of the letters of ["left"] except
    from its ASCII capital, so the comparison with ["left"] made by the
    code has the same outcome. *)
Definition lower_byte (c : ascii) : ascii :=
  let n := nat_of_ascii c in
  if ((65 <=? n) && (n <=? 90))%nat then ascii_of_nat (n + 32) else c.

Fixpoint ToLower (s : string) : string :=
  match s with
  | EmptyString => EmptyString
  | String c r => String (lower_byte c) (ToLower r)
  end.

End GoStrings.

Import GoStrings.

(** ** Dynamic values: what an [interface{}] of a filter can hold *)

Inductive value : Type :=
| VNil                                   (* nil *)
| VString (s : string)                   (* string *)
| VInt (n : Z)                           (* int *)
| VUint (n : N)                          (* uint *)
| VFloat (bits : Z)                      (* float64, by its IEEE-754 bits *)
| VBool (b : bool)                       (* bool *)
| VList (l : list value)                 (* []interface{} *)
| VStrings (l : list string)             (* []string *)
| VMap (m : list (string * value))       (* map[string]interface{} *)
| VIntMap (m : list (string * Z))        (* map[string]int *)
| VOther (go_type : string).             (* a value of any other type *)

Definition gomap := list (string * value).

(** ** Query plans: the clauses chained onto a [*gorm.DB] *)

Inductive clause : Type :=
| CUnscoped
| CJoin (sql : string)
| CWhere (sql : string) (args : list value)
| COrder (sql : string)
| COffset (n : Z)
| CLimit (n : Z).

Definition DB := list clause.

Definition db_Unscoped (db : DB) : DB := (db ++ [CUnscoped])%list.
Definition db_Joins (db : DB) (sql : string) : DB := (db ++ [CJoin sql])%list.
Definition db_Where (db : DB) (sql : string) (args : list value) : DB :=
  (db ++ [CWhere sql args])%list.
Definition db_Order (db : DB) (sql : string) : DB := (db ++ [COrder sql])%list.
Definition db_Offset (db : DB) (n : Z) : DB := (db ++ [COffset n])%list.
Definition db_Limit (db : DB) (n : Z) : DB := (db ++ [CLimit n])%list.

(** [db.Model(new(T))] binds the table of the record type, which is fixed
    throughout; it chains no clause. *)
Definition db_Model (db : DB) : DB := db.

(** ** Go's [int] *)

Definition int_wrap (z : Z) : Z := (z + 2 ^ 63) mod 2 ^ 64 - 2 ^ 63.

(** ** The filter *)

Record JoinConfig : Type := mkJoin {
  Table : string;
  On : string;
  JoinType : string
}.

Record Filter : Type := mkFilter {
  Filterable : list string;
  QueryStr : string;
  Filters : gomap;
  Sortable : list string;
  Sort : string;
  Page : Z;
  PageSize : Z;
  Unscoped : bool;
  Joins : list JoinConfig;
  sqlRecords : list string;
  Debug : bool;
  finalSQL : string
}.

Definition set_sqlRecords (f : Filter) (r : list string) : Filter :=
  mkFilter (Filterable f) (QueryStr f) (Filters f) (Sortable f) (Sort f)
           (Page f) (PageSize f) (Unscoped f) (Joins f) r (Debug f) (finalSQL f).

Definition set_finalSQL (f : Filter) (s : string) : Filter :=
  mkFilter (Filterable f) (QueryStr f) (Filters f) (Sortable f) (Sort f)
           (Page f) (PageSize f) (Unscoped f) (Joins f) (sqlRecords f) (Debug f) s.

Definition set_Page (f : Filter) (p : Z) : Filter :=
  mkFilter (Filterable f) (QueryStr f) (Filters f) (Sortable f) (Sort f)
           p (PageSize f) (Unscoped f) (Joins f) (sqlRecords f) (Debug f) (finalSQL f).

Definition set_PageSize (f : Filter) (p : Z) : Filter :=
  mkFilter (Filterable f) (QueryStr f) (Filters f) (Sortable f) (Sort f)
           (Page f) p (Unscoped f) (Joins f) (sqlRecords f) (Debug f) (finalSQL f).

Definition set_QueryStr (f : Filter) (q : string) : Filter :=
  mkFilter (Filterable f) q (Filters f) (Sortable f) (Sort f)
           (Page f) (PageSize f) (Unscoped f) (Joins f) (sqlRecords f) (Debug f) (finalSQL f).

(** The fields a caller sets, that is all but the two trace fields and the
    page bounds. *)
Definition same_request (f g : Filter) : Prop :=
  Filterable f = Filterable g /\ QueryStr f = QueryStr g /\
  Filters f = Filters g /\ Sortable f = Sortable g /\ Sort f = Sort g /\
  Unscoped f = Unscoped g /\ Joins f = Joins g /\ Debug f = Debug g.

(** [isFilterable]: an empty allow-list admits every field. *)
Definition isFilterable (f : Filter) (field : string) : bool :=
  if (length (Filterable f) =? 0)%nat then true
  else existsb (fun w => String.eqb w field) (Filterable f).

(** [isSortable] *)
Definition isSortable (f : Filter) (field : string) : bool :=
  if String.eqb (TrimSpace field) "" then false
  else if String.eqb field "id" || String.eqb field "created_at"
          || String.eqb field "updated_at" then true
  else if (length (Sortable f) =? 0)%nat then false
  else existsb (fun w => String.eqb w field) (Sortable f).

(** ** What the compiler takes from outside the repository

    [encoding/json], [fmt] and gorm's dry-run renderer are not code of this
    repository; the compiler is parametric in them. *)

Class Externals : Type := {
  (** [json.Unmarshal([]byte(s), &queryMap)] on a nil [queryMap]: [None]
      when it returns an error, otherwise the decoded map; for the document
      [null] the map is left nil and ranges over nothing, that is [[]]. *)
  json_Unmarshal : string -> option gomap;
  (** [fmt.Sprintf("%v", v)] *)
  fmt_v : value -> string;
  (** [db.Session(&gorm.Session{DryRun: true}).ToSQL(...)] *)
  dry_run_SQL : DB -> string
}.

Section Compiler.

Context {X : Externals}.

(** [recordSQL] *)
Definition recordSQL (f : Filter) (desc : string) (val : value) : Filter :=
  if negb (Debug f) then f
  else set_sqlRecords f
         (sqlRecords f ++ [("[" ++ desc ++ "] | args: " ++ fmt_v val)%string])%list.

(** One iteration of the loop of [applyComplexCondition]. *)
Definition complex_step (field : string) (st : Filter * DB)
           (e : string * value) : Filter * DB :=
  let '(f, db) := st in
  let '(op, v) := e in
  if (op =? "eq")%string then
    (recordSQL f ("EQ " ++ field) v, db_Where db (field ++ " = ?") [v])
  else if (op =? "neq")%string then
    (recordSQL f ("NEQ " ++ field) v, db_Where db (field ++ " != ?") [v])
  else if (op =? "gt")%string then
    (recordSQL f ("GT " ++ field) v, db_Where db (field ++ " > ?") [v])
  else if (op =? "gte")%string then
    (recordSQL f ("GTE " ++ field) v, db_Where db (field ++ " >= ?") [v])
  else if (op =? "lt")%string then
    (recordSQL f ("LT " ++ field) v, db_Where db (field ++ " < ?") [v])
  else if (op =? "lte")%string then
    (recordSQL f ("LTE " ++ field) v, db_Where db (field ++ " <= ?") [v])
  else if (op =? "like")%string then
    (recordSQL f ("LIKE " ++ field) v,
     db_Where db (field ++ " LIKE ?") [VString (fmt_v v)])
  else if (op =? "in")%string then
    (recordSQL f ("IN " ++ field) v, db_Where db (field ++ " IN (?)") [v])
  else if (op =? "between")%string then
    match v with
    | VList [a0; a1] =>
        (recordSQL f ("BETWEEN " ++ field) v,
         db_Where db (field ++ " BETWEEN ? AND ?") [a0; a1])
    | _ => (f, db)
    end
  else (f, db).

(** [applyComplexCondition] *)
Definition applyComplexCondition (f : Filter) (db : DB) (field : string)
           (conds : gomap) : Filter * DB :=
  fold_left (complex_step field) conds (f, db).

(** One iteration of the loop of [applyQueryConditions]. *)
Definition condition_step (st : Filter * DB) (e : string * value)
  : Filter * DB :=
  let '(f, db) := st in
  let '(field, v) := e in
  if negb (isFilterable f field) then (f, db)
  else match v with
       | VString _ | VInt _ | VFloat _ | VBool _ =>
           (recordSQL f ("EQ " ++ field) v, db_Where db (field ++ " = ?") [v])
       | VList _ =>
           (recordSQL f ("IN " ++ field) v, db_Where db (field ++ " IN (?)") [v])
       | VStrings _ =>
           (recordSQL f ("IN " ++ field) v, db_Where db (field ++ " IN (?)") [v])
       | VMap conds => applyComplexCondition f db field conds
       | _ => (f, db)
       end.

(** [applyQueryConditions] *)
Definition applyQueryConditions (f : Filter) (db : DB) (conditions : gomap)
  : Filter * DB :=
  fold_left condition_step conditions (f, db).

(** One iteration of the JOIN loop of [PaginationQuery]. *)
Definition join_step (st : Filter * DB) (j : JoinConfig) : Filter * DB :=
  let '(f, db) := st in
  if (ToLower (JoinType j) =? "left")%string then
    let sql := "LEFT JOIN " ++ Table j ++ " ON " ++ On j in
    (recordSQL f sql VNil, db_Joins db sql)
  else
    let sql := "INNER JOIN " ++ Table j ++ " ON " ++ On j in
    (recordSQL f sql VNil, db_Joins db sql).

(** [PaginationQuery] *)
Definition PaginationQuery (f : Filter) (db : DB) : Filter * DB :=
  let f := if Debug f then set_sqlRecords f [] else f in
  let '(f, db) :=
    if Unscoped f
    then (recordSQL f "UNSCOPED" (VString "include soft-deleted records"),
          db_Unscoped db)
    else (f, db) in
  let '(f, db) :=
    if (0 <? length (Joins f))%nat
    then fold_left join_step (Joins f) (f, db)
    else (f, db) in
  let '(f, db) :=
    if (0 <? length (Filters f))%nat
    then applyQueryConditions f db (Filters f)
    else (f, db) in
  if negb (QueryStr f =? "")%string then
    match json_Unmarshal (QueryStr f) with
    | Some queryMap => applyQueryConditions f db queryMap
    | None => (f, db)
    end
  else (f, db).

(** One iteration of the sort loop of [ApplySortAndPagination]. *)
Definition sort_step (st : Filter * DB) (s : string) : Filter * DB :=
  let '(f, db) := st in
  let s := TrimSpace s in
  if (s =? "")%string then (f, db)
  else
    let '(order, field) :=
      if HasPrefix_dash s then ("DESC", TrimPrefix_dash s) else ("ASC", s) in
    if isSortable f field
    then (recordSQL f ("ORDER " ++ field ++ " " ++ order) VNil,
          db_Order db (field ++ " " ++ order))
    else (f, db).

(** [ApplySortAndPagination] *)
Definition ApplySortAndPagination (f : Filter) (db : DB) : Filter * DB :=
  let '(f, db) :=
    if negb (Sort f =? "")%string
    then fold_left sort_step (split_comma (Sort f)) (f, db)
    else (f, db) in
  let f := if Page f <=? 0 then set_Page f 1 else f in
  let f := if PageSize f <=? 0 then set_PageSize f 10 else f in
  let f := if PageSize f >? 500 then set_PageSize f 500 else f in
  let offset := int_wrap ((Page f - 1) * PageSize f) in
  let db := db_Limit (db_Offset db offset) (PageSize f) in
  let f := recordSQL f "Pagination"
             (VIntMap [("page", Page f); ("pageSize", PageSize f)]) in
  let f := if Debug f then set_finalSQL f (dry_run_SQL db) else f in
  (f, db).

(** [PrintSQLs]: the text written to standard output. *)
Definition nl : string := String (ascii_of_nat 10) EmptyString.

Definition fmt_d (z : Z) : string := NilZero.string_of_int (Z.to_int z).

Fixpoint print_records (i : Z) (rs : list string) : string :=
  match rs with
  | [] => ""
  | s :: rest => fmt_d (i + 1) ++ ". " ++ s ++ nl ++ print_records (i + 1) rest
  end.

Definition PrintSQLs (f : Filter) : string :=
  "=== Generated SQL Statements ===" ++ nl
  ++ print_records 0 (sqlRecords f)
  ++ (if negb (finalSQL f =? "")%string
      then "---------------------------------" ++ nl
           ++ "[Final SQL Preview]" ++ nl ++ finalSQL f ++ nl
      else "")
  ++ "=================================" ++ nl.

End Compiler.

(** ** The storage collaborator

    gorm's finishers run a plan against the database. The database is the
    state [conn]; a finisher returns the new state, the [Error] of the
    result and what it read or the [RowsAffected] it reports. *)

Inductive error : Type :=
| errors_New (msg : string)      (* errors.New(msg) *)
| ErrRecordNotFound              (* gorm.ErrRecordNotFound *)
| EngineError (msg : string).    (* any other error of the engine *)

Class Engine (T : Type) : Type := {
  conn : Type;
  run_Count : DB -> conn -> conn * (option error * Z);
  run_Find : DB -> conn -> conn * (option error * list T);
  run_Last : DB -> conn -> conn * (option error * option T);
  run_Create : DB -> T -> conn -> conn * option error;
  run_Updates : DB -> gomap -> conn -> conn * (option error * Z);
  run_UpdateColumn : DB -> string -> value -> conn -> conn * (option error * Z);
  run_Delete : DB -> N -> conn -> conn * (option error * Z)
}.

Section Repository.

Context {X : Externals} {T : Type} {E : Engine T}.

(** Every statement sent to the engine is logged, oldest first. *)
Inductive call : Type :=
| QCount (db : DB)
| QFind (db : DB)
| QLast (db : DB)
| QCreate (db : DB) (m : T)
| QUpdates (db : DB) (updates : gomap)
| QUpdateColumn (db : DB) (column : string) (v : value)
| QDelete (db : DB) (id : N).

Record World : Type := mkWorld {
  wconn : conn;
  wcalls : list call;
  wstdout : string
}.

Definition issue {A : Type} (q : call) (run : conn -> conn * A) (w : World)
  : World * A :=
  let '(c, r) := run (wconn w) in
  (mkWorld c (wcalls w ++ [q])%list (wstdout w), r).

Definition print (text : string) (w : World) : World :=
  mkWorld (wconn w) (wcalls w) (wstdout w ++ text).

Definition id_zero : error := errors_New "id cannot be zero".

(** [GetInfoById] *)
Definition GetInfoById (db : DB) (id : N) (w : World)
  : World * (option T * option error) :=
  if (id =? 0)%N then (w, (None, Some id_zero))
  else
    let q := db_Where (db_Model db) "id = ?" [VUint id] in
    let '(w, (err, res)) := issue (QLast q) (run_Last q) w in
    match err with
    | Some e => (w, (None, Some e))
    | None => (w, (res, None))
    end.

(** [Created] *)
Definition Created (db : DB) (m : T) (w : World) : World * option error :=
  issue (QCreate db m) (run_Create db m) w.

(** The common tail of the three writers: the engine's error if any,
    [ErrRecordNotFound] when no row was affected. *)
Definition affected (r : option error * Z) : option error :=
  match fst r with
  | Some e => Some e
  | None => if snd r =? 0 then Some ErrRecordNotFound else None
  end.

(** [UpdateByIdWithMap] *)
Definition UpdateByIdWithMap (db : DB) (id : N) (updates : gomap) (w : World)
  : World * option error :=
  if (id =? 0)%N then (w, Some id_zero)
  else
    let q := db_Where (db_Model db) "id = ?" [VUint id] in
    let '(w, result) := issue (QUpdates q updates) (run_Updates q updates) w in
    (w, affected result).

(** [QueryWithPagination]: records, count, page, page size, error. *)
Definition QueryWithPagination (db : DB) (f : Filter) (w : World)
  : World * Filter * (list T * Z * Z * Z * option error) :=
  let '(f, queryDB) := PaginationQuery f (db_Model db) in
  let '(w, (err, count)) := issue (QCount queryDB) (run_Count queryDB) w in
  match err with
  | Some e => (w, f, ([], 0, Page f, PageSize f, Some e))
  | None =>
      if count =? 0 then (w, f, ([], 0, Page f, PageSize f, None))
      else
        let '(f, queryDB) := ApplySortAndPagination f queryDB in
        let w := if Debug f then print (PrintSQLs f) w else w in
        let '(w, (err, result)) := issue (QFind queryDB) (run_Find queryDB) w in
        match err with
        | Some e => (w, f, ([], 0, Page f, PageSize f, Some e))
        | None => (w, f, (result, count, Page f, PageSize f, None))
        end
  end.

(** [QueryWithFilter] *)
Definition QueryWithFilter (db : DB) (f : Filter) (w : World)
  : World * Filter * (list T * option error) :=
  let '(f, queryDB) := PaginationQuery f (db_Model db) in
  let '(f, queryDB) := ApplySortAndPagination f queryDB in
  let w := if Debug f then print (PrintSQLs f) w else w in
  let '(w, (err, result)) := issue (QFind queryDB) (run_Find queryDB) w in
  match err with
  | Some e => (w, f, ([], Some e))
  | None => (w, f, (result, None))
  end.

(** [SoftDeleteById] *)
Definition SoftDeleteById (db : DB) (id : N) (w : World)
  : World * option error :=
  if (id =? 0)%N then (w, Some id_zero)
  else
    let '(w, result) := issue (QDelete db id) (run_Delete db id) w in
    (w, affected result).

(** [DeleteById] *)
Definition DeleteById (db : DB) (id : N) (w : World) : World * option error :=
  if (id =? 0)%N then (w, Some id_zero)
  else
    let q := db_Where (db_Model db) "id = ?" [VUint id] in
    let '(w, result) :=
      issue (QUpdateColumn q "is_deleted" (VInt 1))
            (run_UpdateColumn q "is_deleted" (VInt 1)) w in
    (w, affected result).

(** [GetDB] *)
Definition GetDB (db : DB) : DB := db_Model db.

(** *** [repository.go]: the facade *)

Record baseRepository : Type := mkRepo { repo_db : DB }.

Definition NewBaseRepository (db : DB) : baseRepository := mkRepo db.

Definition Repo_GetInfoById (r : baseRepository) := GetInfoById (repo_db r).
Definition Repo_Create (r : baseRepository) := Created (repo_db r).
Definition Repo_UpdateById (r : baseRepository) := UpdateByIdWithMap (repo_db r).
Definition Repo_DeleteById (r : baseRepository) := DeleteById (repo_db r).
Definition Repo_SoftDeleteById (r : baseRepository) := SoftDeleteById (repo_db r).
Definition Repo_ListPagination (r : baseRepository) := QueryWithPagination (repo_db r).
Definition Repo_ListByFilter (r : baseRepository) := QueryWithFilter (repo_db r).
Definition Repo_GetDB (r : baseRepository) := GetDB (repo_db r).

End Repository.

Arguments call T : clear implicits.
Arguments World T {E}.

(** ** An in-memory engine and stand-ins for the libraries

    Used to run the functions above on concrete requests. A row maps column
    names to integers; the engine understands equality predicates on one
    column, OFFSET and LIMIT, and rejects every other clause. *)

Module Mem.

Definition row := list (string * Z).

Definition arg_int (args : list value) : option Z :=
  match args with
  | [VInt n] => Some n
  | [VUint n] => Some (Z.of_N n)
  | _ => None
  end.

Definition supported (c : clause) : bool :=
  match c with
  | CWhere _ args => match arg_int args with Some _ => true | None => false end
  | CJoin _ | COrder _ => false
  | _ => true
  end.

Definition holds (r : row) (c : clause) : bool :=
  match c with
  | CWhere sql args =>
      match arg_int args with
      | Some n => existsb (fun kx => ((fst kx ++ " = ?")%string =? sql)%string
                                    && (snd kx =? n)) r
      | None => false
      end
  | _ => true
  end.

Definition matching (plan : DB) (t : list row) : list row :=
  filter (fun r => forallb (holds r) plan) t.

Definition offset_of (plan : DB) : Z :=
  fold_left (fun o c => match c with COffset n => n | _ => o end) plan 0.

Definition limit_of (plan : DB) : option Z :=
  fold_left (fun o c => match c with CLimit n => Some n | _ => o end) plan None.

Definition window (plan : DB) (rows : list row) : list row :=
  let rows := if 0 <? offset_of plan
              then skipn (Z.to_nat (offset_of plan)) rows else rows in
  match limit_of plan with
  | Some n => if 0 <=? n then firstn (Z.to_nat n) rows else rows
  | None => rows
  end.

Definition unsupported : error := EngineError "unsupported clause".

Definition guard {A : Type} (plan : DB) (t : list row) (dflt : A)
           (k : list row * (option error * A)) : list row * (option error * A) :=
  if forallb supported plan then k else (t, (Some unsupported, dflt)).

Definition set_col (k : string) (x : Z) (r : row) : row :=
  map (fun ky => if (fst ky =? k)%string then (k, x) else ky) r.

Definition set_cols (updates : gomap) (r : row) : row :=
  fold_left (fun r kv => match snd kv with
                         | VInt x => set_col (fst kv) x r
                         | _ => r
                         end) updates r.

Definition update_where (plan : DB) (upd : row -> row) (t : list row)
  : list row * (option error * Z) :=
  guard plan t 0
    (map (fun r => if forallb (holds r) plan then upd r else r) t,
     (None, Z.of_nat (length (matching plan t)))).

Definition has_id (id : N) (r : row) : bool :=
  existsb (fun kx => (fst kx =? "id")%string && (snd kx =? Z.of_N id)) r.

#[export] Instance engine : Engine row := {
  conn := list row;
  run_Count plan t :=
    guard plan t 0 (t, (None, Z.of_nat (length (matching plan t))));
  run_Find plan t :=
    guard plan t [] (t, (None, window plan (matching plan t)));
  run_Last plan t :=
    guard plan t None
      (t, match rev (matching plan t) with
          | r :: _ => (None, Some r)
          | [] => (Some ErrRecordNotFound, None)
          end);
  run_Create _ m t := ((t ++ [m])%list, None);
  run_Updates plan updates t := update_where plan (set_cols updates) t;
  run_UpdateColumn plan column v t :=
    update_where plan (set_cols [(column, v)]) t;
  run_Delete plan id t :=
    guard plan t 0
      (filter (fun r => negb (has_id id r && forallb (holds r) plan)) t,
       (None, Z.of_nat (length (filter (has_id id) (matching plan t)))))
}.

(** A rendering of values in the manner of [%v], exact on strings,
    integers, booleans, nil and sequences of those. *)
Fixpoint show (v : value) : string :=
  match v with
  | VNil => "<nil>"
  | VString s => s
  | VInt n => NilZero.string_of_int (Z.to_int n)
  | VUint n => NilZero.string_of_int (Z.to_int (Z.of_N n))
  | VBool b => if b then "true" else "false"
  | VList l =>
      "[" ++ (fix items (l : list value) : string :=
                match l with
                | [] => ""
                | [x] => show x
                | x :: r => show x ++ " " ++ items r
                end) l ++ "]"
  | VStrings l => "[" ++ String.concat " " l ++ "]"
  | VIntMap m =>
      "map[" ++ String.concat " "
                 (map (fun kx => fst kx ++ ":"
                                 ++ NilZero.string_of_int (Z.to_int (snd kx))) m)
      ++ "]"
  | _ => "?"
  end.

(** A decoder that knows three documents: the empty object, [null] and
    the object binding [status] to the string [active]. *)
Definition quoted (s : string) : string :=
  String (ascii_of_nat 34) s ++ String (ascii_of_nat 34) "".

Definition status_active : string :=
  "{" ++ quoted "status" ++ ":" ++ quoted "active" ++ "}".

Definition decode (s : string) : option gomap :=
  if (s =? "{}")%string then Some []
  else if (s =? "null")%string then Some []
  else if (s =? status_active)%string then Some [("status", VString "active")]
  else None.

#[export] Instance externals : Externals := {
  json_Unmarshal := decode;
  fmt_v := show;
  dry_run_SQL _ := "SELECT"
}.

Definition world (t : list row) : World row := mkWorld t [] "".

Definition blank : Filter :=
  mkFilter [] "" [] [] "" 0 0 false [] [] false "".

(** Eleven rows with the ids 1 to 11. *)
Definition eleven : list row :=
  map (fun i => [("id", Z.of_nat i)]) (seq 1 11).

(** A request with a join, a static equality, a range, a query string and a
    sort directive, and no allow-list for filtering. *)
Definition sample : Filter :=
  mkFilter [] status_active
           [("age", VMap [("between", VList [VInt 18; VInt 65])]);
            ("tags", VStrings ["a"; "b"]); ("id", VInt 7)]
           ["name"] " -name , id,secret" 2 20 true
           [mkJoin "roles" "users.role_id = roles.id" "LEFT"] [] true "".

End Mem.


(** ** The plan described clause by clause

    The compiler threads the trace through every step. The definitions below
    give the clauses alone, by the shape of each entry; the lemmas of the next
    part show that the compiler emits exactly these. *)

(** The filter without its trace. *)
Definition core (f : Filter) : Filter := set_finalSQL (set_sqlRecords f []) "".

(** Operators that compare the column with the operand as it stands. *)
Definition comparison_ops : list (string * string) :=
  [("eq", " = ?"); ("neq", " != ?"); ("gt", " > ?"); ("gte", " >= ?");
   ("lt", " < ?"); ("lte", " <= ?"); ("in", " IN (?)")].

Fixpoint lookup (op : string) (table : list (string * string)) : option string :=
  match table with
  | [] => None
  | (k, x) :: rest => if (op =? k)%string then Some x else lookup op rest
  end.

Definition operator_clauses {X : Externals} (field : string)
           (e : string * value) : list clause :=
  match lookup (fst e) comparison_ops with
  | Some suffix => [CWhere (field ++ suffix) [snd e]]
  | None =>
      if (fst e =? "like")%string
      then [CWhere (field ++ " LIKE ?") [VString (fmt_v (snd e))]]
      else if (fst e =? "between")%string
      then match snd e with
           | VList [a0; a1] => [CWhere (field ++ " BETWEEN ? AND ?") [a0; a1]]
           | _ => []
           end
      else []
  end.

Definition is_scalar (v : value) : bool :=
  match v with
  | VString _ | VInt _ | VFloat _ | VBool _ => true
  | _ => false
  end.

Definition is_sequence (v : value) : bool :=
  match v with
  | VList _ | VStrings _ => true
  | _ => false
  end.

Definition sequence_length (v : value) : option nat :=
  match v with
  | VList l => Some (length l)
  | VStrings l => Some (length l)
  | _ => None
  end.

Definition shape_clauses {X : Externals} (field : string) (v : value)
  : list clause :=
  if is_scalar v then [CWhere (field ++ " = ?") [v]]
  else if is_sequence v then [CWhere (field ++ " IN (?)") [v]]
  else match v with
       | VMap conds => flat_map (operator_clauses field) conds
       | _ => []
       end.

Definition condition_clauses {X : Externals} (f : Filter)
           (e : string * value) : list clause :=
  if isFilterable f (fst e) then shape_clauses (fst e) (snd e) else [].

Definition join_clause (j : JoinConfig) : clause :=
  CJoin ((if (ToLower (JoinType j) =? "left")%string
          then "LEFT JOIN " else "INNER JOIN ") ++ Table j ++ " ON " ++ On j).

Definition sort_direction (token : string) : string :=
  if HasPrefix_dash token then "DESC" else "ASC".

Definition sort_clauses (f : Filter) (raw : string) : list clause :=
  let token := TrimSpace raw in
  if (token =? "")%string then []
  else if isSortable f (TrimPrefix_dash token)
  then [COrder (TrimPrefix_dash token ++ " " ++ sort_direction token)]
  else [].

Definition sort_tokens (f : Filter) : list string :=
  if (Sort f =? "")%string then [] else split_comma (Sort f).

Definition dynamic_conditions {X : Externals} (f : Filter) : gomap :=
  if (QueryStr f =? "")%string then []
  else match json_Unmarshal (QueryStr f) with
       | Some m => m
       | None => []
       end.

Definition clamp_page (p : Z) : Z := if p <=? 0 then 1 else p.

Definition clamp_size (n : Z) : Z :=
  if n <=? 0 then 10 else if n >? 500 then 500 else n.

(** What [PaginationQuery] appends, and what [ApplySortAndPagination]
    appends after it. *)
Definition unscoped_clauses (f : Filter) : list clause :=
  if Unscoped f then [CUnscoped] else [].

Definition predicate_plan {X : Externals} (f : Filter) : list clause :=
  (unscoped_clauses f ++ map join_clause (Joins f)
   ++ flat_map (condition_clauses f) (Filters f)
   ++ flat_map (condition_clauses f) (dynamic_conditions f))%list.

Definition sort_plan (f : Filter) : list clause :=
  (flat_map (sort_clauses f) (sort_tokens f)
   ++ [COffset (int_wrap ((clamp_page (Page f) - 1) * clamp_size (PageSize f)));
       CLimit (clamp_size (PageSize f))])%list.

(** Both listing functions run the two stages one after the other. *)
Definition compile {X : Externals} (f : Filter) (db : DB) : Filter * DB :=
  let '(f1, db1) := PaginationQuery f db in ApplySortAndPagination f1 db1.

(** The two elements of a [[]interface{}] of length two. *)
Definition generic_pair (v : value) : option (value * value) :=
  match v with
  | VList [a0; a1] => Some (a0, a1)
  | _ => None
  end.

Definition always_sortable (field : string) : Prop :=
  field = "id" \/ field = "created_at" \/ field = "updated_at".

(** Three readings of the description of the code, kept as propositions so
    that they can be tested against the functions. *)

(** Listing by filter hands back every row that meets the conditions. *)
Definition listing_returns_all_matching : Prop :=
  forall (f : Filter) (t rows : list Mem.row),
    snd (QueryWithFilter (X := Mem.externals) (E := Mem.engine) []
                         f (Mem.world t))
    = (rows, None) ->
    rows = Mem.matching (predicate_plan (X := Mem.externals) f) t.

(** A sort token yields an ORDER clause exactly when its field is one of
    the three fixed fields or listed as sortable. *)
Definition sort_rule_as_stated : Prop :=
  forall (f : Filter) (raw : string),
    TrimSpace raw <> "" ->
    (snd (sort_step (X := Mem.externals) (f, []) raw) <> []
     <-> (always_sortable (TrimPrefix_dash (TrimSpace raw))
          \/ In (TrimPrefix_dash (TrimSpace raw)) (Sortable f))).

(** [between] yields its range clause exactly when its operand is a
    sequence of two elements. *)
Definition between_rule_as_stated : Prop :=
  forall (f : Filter) (field : string) (v : value),
    (sequence_length v = Some 2%nat
     -> exists a0 a1,
         snd (applyComplexCondition (X := Mem.externals) f [] field
                                    [("between", v)])
         = [CWhere (field ++ " BETWEEN ? AND ?") [a0; a1]])
    /\ (sequence_length v <> Some 2%nat
        -> snd (applyComplexCondition (X := Mem.externals) f [] field
                                      [("between", v)]) = []).

(** The stage a clause belongs to. *)
Definition stage (c : clause) : Z :=
  match c with
  | CUnscoped => 0
  | CJoin _ => 1
  | CWhere _ _ => 2
  | COrder _ => 3
  | COffset _ => 4
  | CLimit _ => 5
  end.

(** The entries a non-empty allow-list lets through. *)
Definition listed (f : Filter) (e : string * value) : bool :=
  existsb (fun w => (w =? fst e)%string) (Filterable f).

(** The operator keys [applyComplexCondition] knows. *)
Definition known_operators : list string :=
  ["eq"; "neq"; "gt"; "gte"; "lt"; "lte"; "like"; "in"; "between"].

(** The spellings of a join type that select a left join: the four letters
    of the word, each in either case. *)
Definition either (a lower upper : ascii) : bool :=
  Ascii.eqb a lower || Ascii.eqb a upper.

Definition spelled_left (s : string) : bool :=
  match s with
  | String a (String b (String c (String d EmptyString))) =>
      either a "l" "L" && either b "e" "E" && either c "f" "F"
      && either d "t" "T"
  | _ => false
  end.

(** An engine honours LIMIT when a fetch returns no more rows than the last
    limit chained onto its plan. *)
Definition honours_limit {T : Type} (E : Engine T) : Prop :=
  forall (plan : DB) (c : conn) (n : Z),
    Mem.limit_of plan = Some n -> 0 <= n ->
    Z.of_nat (length (snd (snd (run_Find plan c)))) <= n.

(** [traced f g cs]: [g] is [f] after a step that emitted the clauses [cs].
    Nothing but the trace has changed, the preview is untouched, and the
    trace has grown by one line per clause when [Debug] is set, by none
    otherwise. *)
Definition traced (f g : Filter) (cs : list clause) : Prop :=
  core g = core f /\ finalSQL g = finalSQL f
  /\ exists lines,
      sqlRecords g = (sqlRecords f ++ lines)%list
      /\ length lines = if Debug f then length cs else 0%nat.

(** ** Lemmas on the steps of the compiler *)

Section CompilerFacts.

Context {X : Externals}.

Lemma recordSQL_core (f : Filter) (d : string) (v : value) :
  core (recordSQL f d v) = core f.
Proof. unfold recordSQL. destruct (Debug f); reflexivity. Qed.

Lemma isFilterable_core (f g : Filter) (field : string) :
  core f = core g -> isFilterable f field = isFilterable g field.
Proof.
  intro H. unfold isFilterable.
  now replace (Filterable f) with (Filterable g)
    by (change (Filterable (core g) = Filterable (core f)); now rewrite H).
Qed.

Lemma isSortable_core (f g : Filter) (field : string) :
  core f = core g -> isSortable f field = isSortable g field.
Proof.
  intro H. unfold isSortable.
  now replace (Sortable f) with (Sortable g)
    by (change (Sortable (core g) = Sortable (core f)); now rewrite H).
Qed.

(** A loop whose steps only extend the trace and append clauses that
    depend on the filter's core appends the clauses of all its steps. *)
Lemma fold_emit {A : Type} (step : Filter * DB -> A -> Filter * DB)
      (emit : Filter -> A -> list clause) :
  (forall f db e, core (fst (step (f, db) e)) = core f
                  /\ snd (step (f, db) e) = (db ++ emit f e)%list) ->
  (forall f g e, core f = core g -> emit f e = emit g e) ->
  forall l f db,
    core (fst (fold_left step l (f, db))) = core f
    /\ snd (fold_left step l (f, db)) = (db ++ flat_map (emit f) l)%list.
Proof.
  intros Hstep Hemit l. induction l as [|e l IH]; intros f db; simpl.
  - now rewrite app_nil_r.
  - destruct (step (f, db) e) as [f1 db1] eqn:E.
    destruct (Hstep f db e) as [Hc Hp]. rewrite E in Hc, Hp. simpl in Hc, Hp.
    destruct (IH f1 db1) as [IHc IHp]. split.
    + now rewrite IHc.
    + rewrite IHp, Hp, <- app_assoc. f_equal. f_equal.
      apply flat_map_ext. intro a. now apply Hemit.
Qed.

Lemma complex_step_spec (field : string) (f : Filter) (db : DB)
      (e : string * value) :
  core (fst (complex_step field (f, db) e)) = core f
  /\ snd (complex_step field (f, db) e) = (db ++ operator_clauses field e)%list.
Proof.
  destruct e as [op v]. unfold complex_step, operator_clauses. simpl.
  repeat match goal with
         | |- context [(op =? ?k)%string] =>
             destruct (op =? k)%string eqn:E;
             [apply String.eqb_eq in E; subst op; simpl | clear E]
         end;
    rewrite ?recordSQL_core, ?app_nil_r; try (now split).
  destruct v as [| ? | ? | ? | ? | ? | l | ? | ? | ? | ?];
    try (simpl; now rewrite app_nil_r).
  destruct l as [|a0 [|a1 [|a2 l]]]; simpl;
    rewrite ?recordSQL_core, ?app_nil_r; now split.
Qed.

Lemma applyComplexCondition_spec (f : Filter) (db : DB) (field : string)
      (conds : gomap) :
  core (fst (applyComplexCondition f db field conds)) = core f
  /\ snd (applyComplexCondition f db field conds)
     = (db ++ flat_map (operator_clauses field) conds)%list.
Proof.
  unfold applyComplexCondition.
  apply (fold_emit (complex_step field) (fun _ => operator_clauses field)).
  - intros. apply complex_step_spec.
  - reflexivity.
Qed.

Lemma condition_step_spec (f : Filter) (db : DB) (e : string * value) :
  core (fst (condition_step (f, db) e)) = core f
  /\ snd (condition_step (f, db) e) = (db ++ condition_clauses f e)%list.
Proof.
  destruct e as [field v]. unfold condition_step, condition_clauses. simpl.
  destruct (isFilterable f field); simpl.
  - unfold shape_clauses.
    destruct v; simpl; rewrite ?recordSQL_core, ?app_nil_r; try (now split).
    apply applyComplexCondition_spec.
  - now rewrite app_nil_r.
Qed.

Lemma condition_clauses_core (f g : Filter) (e : string * value) :
  core f = core g -> condition_clauses f e = condition_clauses g e.
Proof.
  intro H. unfold condition_clauses. now rewrite (isFilterable_core f g).
Qed.

Lemma applyQueryConditions_spec (f : Filter) (db : DB) (conds : gomap) :
  core (fst (applyQueryConditions f db conds)) = core f
  /\ snd (applyQueryConditions f db conds)
     = (db ++ flat_map (condition_clauses f) conds)%list.
Proof.
  unfold applyQueryConditions.
  apply (fold_emit condition_step condition_clauses).
  - intros. apply condition_step_spec.
  - intros. now apply condition_clauses_core.
Qed.

Lemma join_step_spec (f : Filter) (db : DB) (j : JoinConfig) :
  core (fst (join_step (f, db) j)) = core f
  /\ snd (join_step (f, db) j) = (db ++ [join_clause j])%list.
Proof.
  unfold join_step, join_clause.
  destruct (ToLower (JoinType j) =? "left")%string; simpl;
    now rewrite recordSQL_core.
Qed.

Lemma joins_spec (f : Filter) (db : DB) (js : list JoinConfig) :
  core (fst (fold_left join_step js (f, db))) = core f
  /\ snd (fold_left join_step js (f, db)) = (db ++ map join_clause js)%list.
Proof.
  destruct (fold_emit join_step (fun _ j => [join_clause j])
              (fun f db j => join_step_spec f db j)
              (fun _ _ _ _ => eq_refl) js f db) as [Hc Hp].
  split; [exact Hc|]. rewrite Hp. apply f_equal.
  clear. induction js as [|j js IH]; simpl; [reflexivity|now rewrite IH].
Qed.

Lemma PaginationQuery_spec (f : Filter) (db : DB) :
  core (fst (PaginationQuery f db)) = core f
  /\ snd (PaginationQuery f db) = (db ++ predicate_plan f)%list.
Proof.
  unfold PaginationQuery, predicate_plan, unscoped_clauses, dynamic_conditions.
  set (f0 := if Debug f then set_sqlRecords f [] else f).
  assert (H0 : core f0 = core f) by (unfold f0; now destruct (Debug f)).
  assert (HU : Unscoped f0 = Unscoped f) by (unfold f0; now destruct (Debug f)).
  assert (HJ : Joins f0 = Joins f) by (unfold f0; now destruct (Debug f)).
  rewrite HU.
  set (st1 := if Unscoped f then _ else _).
  assert (H1 : core (fst st1) = core f
               /\ snd st1 = (db ++ if Unscoped f then [CUnscoped] else [])%list).
  { unfold st1. destruct (Unscoped f); simpl.
    - now rewrite recordSQL_core.
    - now rewrite app_nil_r. }
  destruct st1 as [f1 db1]. simpl in H1. destruct H1 as [H1 P1].
  assert (J1 : Joins f1 = Joins f)
    by (change (Joins (core f1) = Joins (core f)); now rewrite H1).
  rewrite J1.
  set (st2 := if (0 <? length (Joins f))%nat then _ else _).
  assert (H2 : core (fst st2) = core f
               /\ snd st2 = (db1 ++ map join_clause (Joins f))%list).
  { unfold st2. destruct (Joins f) as [|j js] eqn:EJ.
    - simpl. now rewrite app_nil_r.
    - change (0 <? length (j :: js))%nat with true. cbv iota.
      destruct (joins_spec f1 db1 (j :: js)) as [A B]. now rewrite A, B. }
  destruct st2 as [f2 db2]. simpl in H2. destruct H2 as [H2 P2].
  assert (F2 : Filters f2 = Filters f)
    by (change (Filters (core f2) = Filters (core f)); now rewrite H2).
  rewrite F2.
  set (st3 := if (0 <? length (Filters f))%nat then _ else _).
  assert (H3 : core (fst st3) = core f
               /\ snd st3
                  = (db2 ++ flat_map (condition_clauses f) (Filters f))%list).
  { unfold st3. destruct (Filters f) as [|e es] eqn:EF.
    - simpl. now rewrite app_nil_r.
    - change (0 <? length (e :: es))%nat with true. cbv iota.
      destruct (applyQueryConditions_spec f2 db2 (e :: es)) as [A B].
      rewrite A, B. split; [assumption|]. f_equal.
      apply flat_map_ext. intro a. now apply condition_clauses_core. }
  destruct st3 as [f3 db3]. simpl in H3. destruct H3 as [H3 P3].
  assert (Q3 : QueryStr f3 = QueryStr f)
    by (change (QueryStr (core f3) = QueryStr (core f)); now rewrite H3).
  rewrite Q3.
  assert (P : db3 = (db ++ (if Unscoped f then [CUnscoped] else [])
                        ++ map join_clause (Joins f)
                        ++ flat_map (condition_clauses f) (Filters f))%list).
  { rewrite P3, P2, P1. now rewrite <- !app_assoc. }
  destruct (QueryStr f =? "")%string; simpl.
  - rewrite app_nil_r. now split.
  - destruct (json_Unmarshal (QueryStr f)) as [m|]; simpl.
    + destruct (applyQueryConditions_spec f3 db3 m) as [A B].
      rewrite A, B, P. split; [assumption|]. rewrite <- !app_assoc.
      do 4 f_equal. apply flat_map_ext. intro a. now apply condition_clauses_core.
    + rewrite app_nil_r. now split.
Qed.

Lemma TrimPrefix_no_dash (s : string) :
  HasPrefix_dash s = false -> TrimPrefix_dash s = s.
Proof.
  destruct s as [|c r]; simpl; [reflexivity|]. now intros ->.
Qed.

Lemma sort_step_spec (f : Filter) (db : DB) (s : string) :
  core (fst (sort_step (f, db) s)) = core f
  /\ snd (sort_step (f, db) s) = (db ++ sort_clauses f s)%list.
Proof.
  unfold sort_step, sort_clauses, sort_direction.
  destruct (TrimSpace s =? "")%string; simpl.
  - now rewrite app_nil_r.
  - destruct (HasPrefix_dash (TrimSpace s)) eqn:D;
      [|rewrite (TrimPrefix_no_dash _ D)];
      destruct (isSortable f _); simpl;
      rewrite ?recordSQL_core, ?app_nil_r; now split.
Qed.

Lemma sort_clauses_core (f g : Filter) (s : string) :
  core f = core g -> sort_clauses f s = sort_clauses g s.
Proof.
  intro H. unfold sort_clauses. now rewrite (isSortable_core f g).
Qed.

Lemma ApplySortAndPagination_spec (f : Filter) (db : DB) :
  core (fst (ApplySortAndPagination f db))
  = set_PageSize (set_Page (core f) (clamp_page (Page f)))
                 (clamp_size (PageSize f))
  /\ snd (ApplySortAndPagination f db) = (db ++ sort_plan f)%list.
Proof.
  unfold ApplySortAndPagination, sort_plan, sort_tokens.
  set (st := if negb (Sort f =? "")%string then _ else _).
  assert (H : core (fst st) = core f
              /\ snd st = (db ++ flat_map (sort_clauses f)
                                   (if (Sort f =? "")%string then []
                                    else split_comma (Sort f)))%list).
  { unfold st. destruct (Sort f =? "")%string; simpl.
    - now rewrite app_nil_r.
    - apply (fold_emit sort_step sort_clauses).
      + intros. apply sort_step_spec.
      + intros. now apply sort_clauses_core. }
  destruct st as [f1 db1]. simpl in H. destruct H as [H P].
  assert (HP : Page f1 = Page f)
    by (change (Page (core f1) = Page (core f)); now rewrite H).
  assert (HS : PageSize f1 = PageSize f)
    by (change (PageSize (core f1) = PageSize (core f)); now rewrite H).
  rewrite <- HP, <- HS, <- H. subst db1. clear.
  destruct f1 as [fa q fs so s p ps u j r dbg fin].
  unfold clamp_page, clamp_size, recordSQL, core, db_Limit, db_Offset. simpl.
  destruct (p <=? 0); simpl;
    destruct (ps <=? 0); simpl;
    try destruct (ps >? 500); simpl;
    destruct dbg; simpl; rewrite <- ?app_assoc; now split.
Qed.

(** *** The order of the clause groups *)

Lemma sorted_blocks (l1 l2 : list Z) (k : Z) :
  StronglySorted Z.le l1 -> Forall (fun x => x <= k) l1 ->
  StronglySorted Z.le l2 -> Forall (fun x => k <= x) l2 ->
  StronglySorted Z.le (l1 ++ l2).
Proof.
  intros S1 B1 S2 B2. induction l1 as [|x l1 IH]; simpl; [assumption|].
  inversion S1; subst. inversion B1; subst. constructor.
  - now apply IH.
  - apply Forall_app. split; [assumption|].
    eapply Forall_impl; [|exact B2]. intros; simpl in *; lia.
Qed.

Lemma constant_sorted (k : Z) (l : list Z) :
  Forall (eq k) l -> StronglySorted Z.le l.
Proof.
  induction 1 as [|x l Hx Hl IH]; constructor; [assumption|].
  subst x. eapply Forall_impl; [|exact Hl]. intros; simpl in *; lia.
Qed.

Lemma stage_block (k : Z) (cs : list clause) :
  Forall (fun c => stage c = k) cs -> Forall (eq k) (map stage cs).
Proof.
  induction 1; simpl; constructor; auto.
Qed.

Lemma operator_clauses_stage (field : string) (e : string * value) :
  Forall (fun c => stage c = 2) (operator_clauses field e).
Proof.
  unfold operator_clauses.
  destruct (lookup (fst e) comparison_ops); [repeat constructor|].
  destruct (fst e =? "like")%string; [repeat constructor|].
  destruct (fst e =? "between")%string; [|constructor].
  destruct (snd e) as [| ? | ? | ? | ? | ? | l | ? | ? | ? | ?];
    try constructor.
  destruct l as [|a0 [|a1 [|a2 l]]]; repeat constructor.
Qed.

Lemma condition_clauses_stage (f : Filter) (conds : gomap) :
  Forall (fun c => stage c = 2) (flat_map (condition_clauses f) conds).
Proof.
  apply Forall_flat_map, Forall_forall. intros [field v] _.
  unfold condition_clauses, shape_clauses. simpl.
  destruct (isFilterable f field); [|constructor].
  destruct (is_scalar v); [repeat constructor|].
  destruct (is_sequence v); [repeat constructor|].
  destruct v; try constructor.
  apply Forall_flat_map, Forall_forall. intros e _.
  apply operator_clauses_stage.
Qed.

Lemma sort_clauses_stage (f : Filter) (tokens : list string) :
  Forall (fun c => stage c = 3) (flat_map (sort_clauses f) tokens).
Proof.
  apply Forall_flat_map, Forall_forall. intros raw _. unfold sort_clauses.
  destruct (TrimSpace raw =? "")%string; [constructor|].
  destruct (isSortable f _); repeat constructor.
Qed.

Lemma compile_spec (f : Filter) (db : DB) :
  core (fst (compile f db))
  = set_PageSize (set_Page (core f) (clamp_page (Page f)))
                 (clamp_size (PageSize f))
  /\ snd (compile f db) = (db ++ predicate_plan f ++ sort_plan f)%list.
Proof.
  unfold compile.
  destruct (PaginationQuery_spec f db) as [Hc Hp].
  destruct (PaginationQuery f db) as [f1 db1]. simpl in Hc, Hp.
  destruct (ApplySortAndPagination_spec f1 db1) as [Ac Ap].
  rewrite Ac, Ap, Hp, Hc, <- app_assoc.
  replace (Page f1) with (Page f)
    by (change (Page (core f) = Page (core f1)); now rewrite Hc).
  replace (PageSize f1) with (PageSize f)
    by (change (PageSize (core f) = PageSize (core f1)); now rewrite Hc).
  split; [reflexivity|]. do 2 f_equal. unfold sort_plan, sort_tokens.
  replace (Sort f1) with (Sort f)
    by (change (Sort (core f) = Sort (core f1)); now rewrite Hc).
  replace (Page f1) with (Page f)
    by (change (Page (core f) = Page (core f1)); now rewrite Hc).
  replace (PageSize f1) with (PageSize f)
    by (change (PageSize (core f) = PageSize (core f1)); now rewrite Hc).
  f_equal. apply flat_map_ext. intro a. now apply sort_clauses_core.
Qed.

(** Read by stage, the clauses of the two stages never step back to an
    earlier group. *)
Lemma plan_stages_sorted (f : Filter) :
  StronglySorted Z.le (map stage (predicate_plan f ++ sort_plan f)).
Proof.
  unfold predicate_plan, sort_plan, unscoped_clauses.
  rewrite <- !app_assoc, !map_app.
    apply (sorted_blocks _ _ 0).
    { destruct (Unscoped f); repeat constructor. }
    { destruct (Unscoped f); simpl; repeat constructor; lia. }
    2:{ rewrite <- !map_app. apply Forall_map, Forall_forall.
        intros c Hc. destruct c; simpl; lia. }
    apply (sorted_blocks _ _ 1).
    { apply (constant_sorted 1), stage_block, Forall_forall.
      intros c Hc. apply in_map_iff in Hc. now destruct Hc as [j [<- _]]. }
    { apply Forall_map, Forall_forall. intros c Hc.
      apply in_map_iff in Hc. destruct Hc as [j [<- _]]. simpl. lia. }
    2:{ rewrite <- !map_app. apply Forall_map, Forall_forall. intros c Hc.
        rewrite !in_app_iff in Hc.
        pose proof (condition_clauses_stage f (Filters f)) as A.
        pose proof (condition_clauses_stage f (dynamic_conditions f)) as B.
        pose proof (sort_clauses_stage f (sort_tokens f)) as C.
        rewrite Forall_forall in A, B, C.
        destruct Hc as [Hc|[Hc|[Hc|Hc]]];
          [rewrite (A c Hc)|rewrite (B c Hc)|rewrite (C c Hc)|]; try lia.
        destruct Hc as [<-|[<-|[]]]; simpl; lia. }
    apply (sorted_blocks _ _ 2).
    { apply (constant_sorted 2), stage_block, condition_clauses_stage. }
    { apply Forall_map. eapply Forall_impl; [|apply condition_clauses_stage].
      simpl. intros; lia. }
    2:{ rewrite <- !map_app. apply Forall_map, Forall_forall. intros c Hc.
        rewrite !in_app_iff in Hc.
        pose proof (condition_clauses_stage f (dynamic_conditions f)) as B.
        pose proof (sort_clauses_stage f (sort_tokens f)) as C.
        rewrite Forall_forall in B, C.
        destruct Hc as [Hc|[Hc|Hc]];
          [rewrite (B c Hc)|rewrite (C c Hc)|]; try lia.
        destruct Hc as [<-|[<-|[]]]; simpl; lia. }
    apply (sorted_blocks _ _ 2).
    { apply (constant_sorted 2), stage_block, condition_clauses_stage. }
    { apply Forall_map. eapply Forall_impl; [|apply condition_clauses_stage].
      simpl. intros; lia. }
    2:{ rewrite <- !map_app. apply Forall_map, Forall_forall. intros c Hc.
        rewrite !in_app_iff in Hc.
        pose proof (sort_clauses_stage f (sort_tokens f)) as C.
        rewrite Forall_forall in C.
        destruct Hc as [Hc|Hc]; [rewrite (C c Hc)|]; try lia.
        destruct Hc as [<-|[<-|[]]]; simpl; lia. }
    apply (sorted_blocks _ _ 3).
    { apply (constant_sorted 3), stage_block, sort_clauses_stage. }
    { apply Forall_map. eapply Forall_impl; [|apply sort_clauses_stage].
      simpl. intros; lia. }
    { simpl. repeat constructor; lia. }
    { simpl. repeat constructor; lia. }
Qed.

(** *** The allow-lists *)

Lemma condition_clauses_open (f : Filter) (e : string * value) :
  Filterable f = [] -> condition_clauses f e = shape_clauses (fst e) (snd e).
Proof.
  intro H. unfold condition_clauses, isFilterable. now rewrite H.
Qed.

(** C6. With an empty [Filterable] list the allow-list check accepts every
    field name, and the predicates of the plan are those of every entry of
    the static filters and of the decoded query string, by the shape of its
    value alone: a scalar contributes its equality clause, a sequence its
    membership clause, a nested map the clauses of its operators. *)
Theorem empty_allow_list_admits_all (f : Filter) (db : DB) :
  Filterable f = [] ->
  (forall field, isFilterable f field = true)
  /\ snd (PaginationQuery f db)
     = (db ++ unscoped_clauses f ++ map join_clause (Joins f)
           ++ flat_map (fun e => shape_clauses (fst e) (snd e))
                       (Filters f ++ dynamic_conditions f))%list
  /\ (forall field v,
        In (field, v) (Filters f ++ dynamic_conditions f) ->
        (is_scalar v = true ->
         In (CWhere (field ++ " = ?") [v]) (snd (PaginationQuery f db)))
        /\ (is_sequence v = true ->
            In (CWhere (field ++ " IN (?)") [v]) (snd (PaginationQuery f db)))
        /\ (forall conds, v = VMap conds ->
            incl (flat_map (operator_clauses field) conds)
                 (snd (PaginationQuery f db)))).
Proof.
  intro H.
  assert (P : snd (PaginationQuery f db)
              = (db ++ unscoped_clauses f ++ map join_clause (Joins f)
                    ++ flat_map (fun e => shape_clauses (fst e) (snd e))
                                (Filters f ++ dynamic_conditions f))%list).
  { destruct (PaginationQuery_spec f db) as [_ ->]. unfold predicate_plan.
    rewrite flat_map_app. do 3 f_equal.
    f_equal; apply flat_map_ext; intro e; now apply condition_clauses_open. }
  split; [|split].
  - intro field. unfold isFilterable. now rewrite H.
  - exact P.
  - intros field v Hin.
    assert (Q : incl (shape_clauses field v) (snd (PaginationQuery f db))).
    { intros c Hc. rewrite P, !in_app_iff. right. right. right.
      apply in_flat_map. exists (field, v). now split. }
    unfold shape_clauses in Q. repeat split.
    + intro S. rewrite S in Q. apply Q. now left.
    + intro S. destruct (is_scalar v) eqn:Sc.
      * destruct v; discriminate.
      * rewrite S in Q. apply Q. now left.
    + intros conds ->. exact Q.
Qed.

Lemma isSortable_iff (f : Filter) (field : string) :
  isSortable f field = true
  <-> TrimSpace field <> ""
      /\ (always_sortable field \/ In field (Sortable f)).
Proof.
  unfold isSortable, always_sortable.
  destruct (String.eqb_spec (TrimSpace field) "") as [B|B].
  { split; [discriminate|]. now intros [N _]. }
  destruct (String.eqb_spec field "id") as [->|N1]; simpl.
  { split; auto. }
  destruct (String.eqb_spec field "created_at") as [->|N2]; simpl.
  { split; auto. }
  destruct (String.eqb_spec field "updated_at") as [->|N3]; simpl.
  { split; auto. }
  destruct (Sortable f) as [|w ws] eqn:ES.
  { simpl. split; [discriminate|]. intros [_ [[?|[?|?]]|[]]]; contradiction. }
  change (length (w :: ws) =? 0)%nat with false. cbv iota.
  rewrite existsb_exists. split.
  - intros [x [Hx Ex]]. apply String.eqb_eq in Ex. subst x. auto.
  - intros [_ [[?|[?|?]]|Hin]]; try contradiction.
    exists field. split; [assumption|apply String.eqb_refl].
Qed.

Lemma app_singleton_neq {A : Type} (l : list A) (x : A) : l <> (l ++ [x])%list.
Proof.
  intro H. apply (f_equal (@length A)) in H. rewrite length_app in H.
  simpl in H. lia.
Qed.

(** C7, as the code has it. A sort token, trimmed and not empty, appends the
    ORDER clause of its field (the token without a leading dash) and
    direction exactly when the field is not blank and is one of [id],
    [created_at], [updated_at] or a member of [Sortable]; otherwise the plan
    is left as it was. With an empty [Sortable] list the clause is appended
    exactly for the three fixed fields. *)
Theorem sort_token_rule (f : Filter) (db : DB) (raw : string) :
  TrimSpace raw <> "" ->
  let field := TrimPrefix_dash (TrimSpace raw) in
  let ordered :=
    (db ++ [COrder (field ++ " " ++ sort_direction (TrimSpace raw))])%list in
  (snd (sort_step (f, db) raw) = ordered
   <-> TrimSpace field <> ""
       /\ (always_sortable field \/ In field (Sortable f)))
  /\ (snd (sort_step (f, db) raw) <> ordered -> snd (sort_step (f, db) raw) = db)
  /\ (Sortable f = [] ->
      (snd (sort_step (f, db) raw) = ordered <-> always_sortable field)).
Proof.
  intros NE field ordered.
  destruct (sort_step_spec f db raw) as [_ P]. rewrite P.
  unfold sort_clauses.
  destruct (String.eqb_spec (TrimSpace raw) "") as [E|_]; [contradiction|].
  fold field. pose proof (isSortable_iff f field) as I.
  destruct (isSortable f field) eqn:S.
  - assert (C : TrimSpace field <> ""
                /\ (always_sortable field \/ In field (Sortable f)))
      by now apply I.
    split; [|split].
    + split; auto.
    + intro H. now contradiction H.
    + intro ES. split; auto. intros _.
      destruct C as [_ [C|C]]; [assumption|]. rewrite ES in C. destruct C.
  - rewrite app_nil_r. split; [|split].
    + split.
      * intro H. now apply app_singleton_neq in H.
      * intro C. apply I in C. discriminate.
    + reflexivity.
    + intros _. split.
      * intro H. now apply app_singleton_neq in H.
      * intro C. exfalso.
        assert (TrimSpace field <> "")
          by (destruct C as [C|[C|C]]; rewrite C; discriminate).
        assert (false = true) by (apply I; auto).
        discriminate.
Qed.

(** *** The query string *)

(** C8. When the query string does not decode to an object (the decoder
    reports an error, or leaves the map nil as it does for [null]), the
    compiled plan is the plan of the same filter with an empty query string:
    the widening, the joins and the static predicates, and nothing else. *)
Theorem undecodable_query_adds_nothing (f : Filter) (db : DB) :
  json_Unmarshal (QueryStr f) = None \/ json_Unmarshal (QueryStr f) = Some [] ->
  snd (PaginationQuery f db) = snd (PaginationQuery (set_QueryStr f "") db)
  /\ snd (PaginationQuery f db)
     = (db ++ unscoped_clauses f ++ map join_clause (Joins f)
           ++ flat_map (condition_clauses f) (Filters f))%list.
Proof.
  intro H.
  destruct (PaginationQuery_spec f db) as [_ ->].
  destruct (PaginationQuery_spec (set_QueryStr f "") db) as [_ ->].
  assert (D : dynamic_conditions f = []).
  { unfold dynamic_conditions. destruct (QueryStr f =? "")%string; [reflexivity|].
    now destruct H as [-> | ->]. }
  unfold predicate_plan. rewrite D. simpl. rewrite !app_nil_r. split.
  - reflexivity.
  - reflexivity.
Qed.

(** *** The range operator *)

(** C9, as the code has it. In a nested operator map, a [between] entry
    whose operand is a [[]interface{}] of exactly two elements contributes
    one range clause bound to the two elements in order, in the position of
    the entry; with any other operand (another length, a typed slice such as
    [[]string], a value that is no sequence) the plan is the one compiled
    without the entry. *)
Theorem between_rule (f : Filter) (db : DB) (field : string)
        (before after : gomap) (v : value) :
  snd (applyComplexCondition f db field
         (before ++ ("between", v) :: after)%list)
  = match generic_pair v with
    | Some (a0, a1) =>
        (snd (applyComplexCondition f db field before)
         ++ [CWhere (field ++ " BETWEEN ? AND ?") [a0; a1]]
         ++ flat_map (operator_clauses field) after)%list
    | None => snd (applyComplexCondition f db field (before ++ after)%list)
    end.
Proof.
  destruct (applyComplexCondition_spec f db field
              (before ++ ("between", v) :: after)%list) as [_ ->].
  destruct (applyComplexCondition_spec f db field before) as [_ ->].
  destruct (applyComplexCondition_spec f db field (before ++ after)%list)
    as [_ ->].
  rewrite !flat_map_app. simpl.
  assert (O : operator_clauses field ("between", v)
              = match generic_pair v with
                | Some (a0, a1) => [CWhere (field ++ " BETWEEN ? AND ?") [a0; a1]]
                | None => []
                end).
  { unfold operator_clauses, generic_pair. simpl.
    destruct v as [| ? | ? | ? | ? | ? | l | ? | ? | ? | ?]; try reflexivity.
    destruct l as [|a0 [|a1 [|a2 l]]]; reflexivity. }
  rewrite O. destruct (generic_pair v) as [[a0 a1]|]; simpl.
  - now rewrite <- !app_assoc.
  - reflexivity.
Qed.

End CompilerFacts.

(** ** The listing and by-id functions *)

Section RepositoryFacts.

Context {X : Externals} {T : Type} {E : Engine T}.

Lemma core_fields (f g : Filter) :
  core g = core f ->
  same_request f g /\ Page g = Page f /\ PageSize g = PageSize f.
Proof.
  intro H. unfold same_request. repeat split;
    match goal with
    | |- ?p f = ?p g => change (p (core f) = p (core g))
    | |- ?p g = ?p f => change (p (core g) = p (core f))
    end; now rewrite H.
Qed.

Lemma clamped_fields (f g : Filter) :
  core g = set_PageSize (set_Page (core f) (clamp_page (Page f)))
                        (clamp_size (PageSize f)) ->
  same_request f g /\ Page g = clamp_page (Page f)
  /\ PageSize g = clamp_size (PageSize f).
Proof.
  intro H. unfold same_request. repeat split;
    match goal with
    | |- ?p f = ?p g => change (p f = p (core g))
    | |- ?p g = _ => change (p g) with (p (core g))
    end; now rewrite H.
Qed.

Lemma clamp_page_bounds (p : Z) : 1 <= clamp_page p.
Proof. unfold clamp_page. destruct (Z.leb_spec p 0); lia. Qed.

Lemma clamp_size_bounds (n : Z) : 1 <= clamp_size n <= 500.
Proof.
  unfold clamp_size. destruct (Z.leb_spec n 0); [lia|].
  destruct (n >? 500) eqn:G; [lia|]. rewrite Z.gtb_ltb in G.
  apply Z.ltb_ge in G. lia.
Qed.

(** [QueryWithFilter], path by path. *)
Lemma QueryWithFilter_paths (db : DB) (f : Filter) (w : World T) :
  QueryWithFilter db f w
  = let plan := (db ++ predicate_plan f ++ sort_plan f)%list in
    let f2 := fst (compile f db) in
    let out := if Debug f then wstdout w ++ PrintSQLs f2 else wstdout w in
    let found := run_Find plan (wconn w) in
    let w2 := mkWorld (fst found) (wcalls w ++ [QFind plan])%list out in
    match fst (snd found) with
    | Some e => (w2, f2, ([], Some e))
    | None => (w2, f2, (snd (snd found), None))
    end.
Proof.
  unfold QueryWithFilter, db_Model.
  destruct (compile_spec f db) as [Hc Hp]. unfold compile in *.
  destruct (PaginationQuery f db) as [f1 db1].
  destruct (ApplySortAndPagination f1 db1) as [f2 db2].
  simpl in Hc, Hp. subst db2.
  destruct (clamped_fields f f2 Hc) as [[_ [_ [_ [_ [_ [_ [_ D]]]]]]] _].
  rewrite D. unfold issue, print. cbv zeta.
  destruct (Debug f2); simpl;
    destruct (run_Find _ (wconn w)) as [c [[e|] rows]]; reflexivity.
Qed.

(** [QueryWithPagination], path by path. *)
Lemma QueryWithPagination_paths (db : DB) (f : Filter) (w : World T) :
  QueryWithPagination db f w
  = let plan := (db ++ predicate_plan f)%list in
    let f1 := fst (PaginationQuery f db) in
    let counted := run_Count plan (wconn w) in
    let w1 := mkWorld (fst counted) (wcalls w ++ [QCount plan])%list (wstdout w) in
    match fst (snd counted) with
    | Some e => (w1, f1, ([], 0, Page f, PageSize f, Some e))
    | None =>
        if snd (snd counted) =? 0
        then (w1, f1, ([], 0, Page f, PageSize f, None))
        else
          let plan2 := (plan ++ sort_plan f)%list in
          let f2 := fst (compile f db) in
          let out := if Debug f then wstdout w ++ PrintSQLs f2 else wstdout w in
          let found := run_Find plan2 (fst counted) in
          let w2 := mkWorld (fst found)
                            (wcalls w ++ [QCount plan; QFind plan2])%list out in
          match fst (snd found) with
          | Some e => (w2, f2, ([], 0, clamp_page (Page f),
                                clamp_size (PageSize f), Some e))
          | None => (w2, f2, (snd (snd found), snd (snd counted),
                              clamp_page (Page f), clamp_size (PageSize f), None))
          end
    end.
Proof.
  unfold QueryWithPagination, db_Model.
  destruct (compile_spec f db) as [Hc Hp]. unfold compile in *.
  destruct (PaginationQuery_spec f db) as [Qc Qp].
  destruct (PaginationQuery f db) as [f1 db1]. simpl in Qc, Qp. subst db1.
  destruct (core_fields f f1 Qc) as [_ [P1 S1]].
  unfold issue at 1. cbv zeta. simpl fst.
  destruct (run_Count _ (wconn w)) as [c [[e|] n]]; simpl.
  { now rewrite P1, S1. }
  destruct (n =? 0); [now rewrite P1, S1|].
  destruct (ApplySortAndPagination f1 _) as [f2 db2].
  simpl in Hc, Hp. subst db2.
  destruct (clamped_fields f f2 Hc) as [[_ [_ [_ [_ [_ [_ [_ D]]]]]]] [P2 S2]].
  rewrite D, <- P2, <- S2, <- app_assoc. unfold issue, print. simpl.
  destruct (Debug f2); simpl;
    destruct (run_Find _ c) as [c2 [[e2|] rows]]; simpl;
    rewrite <- ?app_assoc; reflexivity.
Qed.

Lemma QueryWithFilter_filter (db : DB) (f : Filter) (w : World T) :
  snd (fst (QueryWithFilter db f w)) = fst (compile f db).
Proof.
  rewrite QueryWithFilter_paths. cbv zeta.
  now destruct (fst (snd (run_Find _ (wconn w)))).
Qed.

(** C1, as the code has it. [QueryWithFilter] sends the engine one
    statement, a fetch, and no count. The plan fetched is the compiled
    predicates followed by the order clauses, the offset and the limit of the
    page: the page is at least 1, the page size lies in 1..500, and both are
    the caller's values clamped. The records returned are those the engine
    finds for that plan, none when it reports an error. *)
Theorem QueryWithFilter_fetches_one_page (db : DB) (f : Filter) (w : World T) :
  let plan := (db ++ predicate_plan f ++ sort_plan f)%list in
  let found := run_Find plan (wconn w) in
  let r := QueryWithFilter db f w in
  let f' := snd (fst r) in
  wcalls (fst (fst r)) = (wcalls w ++ [QFind plan])%list
  /\ snd r = match fst (snd found) with
             | Some e => ([], Some e)
             | None => (snd (snd found), None)
             end
  /\ plan = (db ++ predicate_plan f ++ flat_map (sort_clauses f) (sort_tokens f)
                ++ [COffset (int_wrap ((Page f' - 1) * PageSize f'));
                    CLimit (PageSize f')])%list
  /\ Page f' = clamp_page (Page f) /\ PageSize f' = clamp_size (PageSize f)
  /\ 1 <= Page f' /\ 1 <= PageSize f' <= 500.
Proof.
  cbv zeta. rewrite QueryWithFilter_filter.
  destruct (compile_spec f db) as [Hc _].
  destruct (clamped_fields f _ Hc) as [_ [HP HS]].
  rewrite HP, HS.
  pose proof (clamp_page_bounds (Page f)).
  pose proof (clamp_size_bounds (PageSize f)).
  rewrite QueryWithFilter_paths. cbv zeta.
  repeat split; try lia;
    destruct (fst (snd (run_Find _ (wconn w)))); reflexivity.
Qed.

(** C3. When the count of the compiled predicates is zero,
    [QueryWithPagination] returns no record, a total of 0 and no error; the
    count is the only statement sent to the engine, nothing is printed, and
    the filter is as [PaginationQuery] left it: the sort and pagination
    stage has not run. *)
Theorem zero_count_short_circuit (db : DB) (f : Filter) (w : World T)
        (c : conn) :
  run_Count (db ++ predicate_plan f)%list (wconn w) = (c, (None, 0)) ->
  QueryWithPagination db f w
  = (mkWorld c (wcalls w ++ [QCount (db ++ predicate_plan f)%list])%list
             (wstdout w),
     fst (PaginationQuery f db),
     ([], 0, Page f, PageSize f, None)).
Proof.
  intro H. rewrite QueryWithPagination_paths. cbv zeta. now rewrite H.
Qed.

(** C5. With id 0, [GetInfoById], [UpdateByIdWithMap], [DeleteById] and
    [SoftDeleteById], called directly or through the repository, return the
    error "id cannot be zero" and leave the world as it was: no statement
    reaches the engine. *)
Theorem zero_id_rejected (db : DB) (updates : gomap) (w : World T) :
  GetInfoById db 0 w = (w, (None, Some (errors_New "id cannot be zero")))
  /\ UpdateByIdWithMap db 0 updates w
     = (w, Some (errors_New "id cannot be zero"))
  /\ DeleteById db 0 w = (w, Some (errors_New "id cannot be zero"))
  /\ SoftDeleteById db 0 w = (w, Some (errors_New "id cannot be zero"))
  /\ Repo_GetInfoById (NewBaseRepository db) 0 w
     = (w, (None, Some (errors_New "id cannot be zero")))
  /\ Repo_UpdateById (NewBaseRepository db) 0 updates w
     = (w, Some (errors_New "id cannot be zero"))
  /\ Repo_DeleteById (NewBaseRepository db) 0 w
     = (w, Some (errors_New "id cannot be zero"))
  /\ Repo_SoftDeleteById (NewBaseRepository db) 0 w
     = (w, Some (errors_New "id cannot be zero")).
Proof. repeat split. Qed.

(** C10. [ApplySortAndPagination] writes the clamped page and page size into
    the filter: afterwards the page is at least 1 and the page size lies in
    1..500. [PaginationQuery] changes neither. Both leave every field other
    than the page, the page size and the two trace fields as it was, and so
    do the two listing functions; [QueryWithFilter] always ends with the
    bounds clamped, [QueryWithPagination] whenever the count succeeds and is
    not zero. *)
Theorem filter_frame (db : DB) (f : Filter) (w : World T) :
  (let g := fst (PaginationQuery f db) in
   same_request f g /\ Page g = Page f /\ PageSize g = PageSize f)
  /\ (let g := fst (ApplySortAndPagination f db) in
      same_request f g /\ Page g = clamp_page (Page f)
      /\ PageSize g = clamp_size (PageSize f)
      /\ 1 <= Page g /\ 1 <= PageSize g <= 500)
  /\ (let g := snd (fst (QueryWithFilter db f w)) in
      same_request f g /\ 1 <= Page g /\ 1 <= PageSize g <= 500)
  /\ (let g := snd (fst (QueryWithPagination db f w)) in
      same_request f g
      /\ (forall c n,
            run_Count (db ++ predicate_plan f)%list (wconn w) = (c, (None, n)) ->
            n <> 0 -> 1 <= Page g /\ 1 <= PageSize g <= 500)).
Proof.
  pose proof (clamp_page_bounds (Page f)) as BP.
  pose proof (clamp_size_bounds (PageSize f)) as BS.
  destruct (PaginationQuery_spec f db) as [Qc _].
  destruct (ApplySortAndPagination_spec f db) as [Ac _].
  destruct (compile_spec f db) as [Cc _].
  destruct (core_fields f _ Qc) as [Q1 [Q2 Q3]].
  destruct (clamped_fields f _ Ac) as [A1 [A2 A3]].
  destruct (clamped_fields f _ Cc) as [C1 [C2 C3]].
  cbv zeta. split; [auto|]. split; [rewrite A2, A3; auto|]. split.
  - rewrite QueryWithFilter_filter, C2, C3. auto.
  - split.
    + rewrite QueryWithPagination_paths. cbv zeta.
      destruct (fst (snd (run_Count _ (wconn w)))); [assumption|].
      destruct (_ =? 0); [assumption|].
      now destruct (fst (snd (run_Find _ _))).
    + intros c n H N. rewrite QueryWithPagination_paths. cbv zeta.
      rewrite H. simpl. apply Z.eqb_neq in N. rewrite N.
      destruct (fst (snd (run_Find _ _))); simpl; rewrite C2, C3; auto.
Qed.

(** C4. The plans the listing functions send hold the clause groups in one
    fixed order after the base plan: the unscoped widening, the joins in the
    declared order, the predicates of the static filters, the predicates of
    the decoded query string, and, where the statement is the fetch, the
    order clauses, the offset and the limit. [PaginationQuery] appends the
    first four groups and [ApplySortAndPagination] the last three;
    [QueryWithFilter] fetches on the first followed by the second;
    [QueryWithPagination] counts on the first and, when the count succeeds
    and is not zero, fetches on the first followed by the second. Read by
    stage, the clauses sent never step back to an earlier group. *)
Theorem clause_groups_in_fixed_order (db : DB) (f : Filter) (w : World T) :
  let predicates :=
    ((if Unscoped f then [CUnscoped] else [])
     ++ map join_clause (Joins f)
     ++ flat_map (condition_clauses f) (Filters f)
     ++ flat_map (condition_clauses f) (dynamic_conditions f))%list in
  let paging :=
    (flat_map (sort_clauses f) (sort_tokens f)
     ++ [COffset (int_wrap ((clamp_page (Page f) - 1)
                            * clamp_size (PageSize f)));
         CLimit (clamp_size (PageSize f))])%list in
  let counted := snd (run_Count (db ++ predicates)%list (wconn w)) in
  snd (PaginationQuery f db) = (db ++ predicates)%list
  /\ snd (ApplySortAndPagination f db) = (db ++ paging)%list
  /\ wcalls (fst (fst (QueryWithFilter db f w)))
     = (wcalls w ++ [QFind (db ++ predicates ++ paging)%list])%list
  /\ wcalls (fst (fst (QueryWithPagination db f w)))
     = (wcalls w
        ++ QCount (db ++ predicates)%list
           :: match fst counted with
              | Some _ => []
              | None => if snd counted =? 0 then []
                        else [QFind (db ++ predicates ++ paging)%list]
              end)%list
  /\ StronglySorted Z.le (map stage (predicates ++ paging)).
Proof.
  cbv zeta.
  change ((if Unscoped f then [CUnscoped] else [])
          ++ map join_clause (Joins f)
          ++ flat_map (condition_clauses f) (Filters f)
          ++ flat_map (condition_clauses f) (dynamic_conditions f))%list
    with (predicate_plan f).
  change (flat_map (sort_clauses f) (sort_tokens f)
          ++ [COffset (int_wrap ((clamp_page (Page f) - 1)
                                 * clamp_size (PageSize f)));
              CLimit (clamp_size (PageSize f))])%list
    with (sort_plan f).
  destruct (PaginationQuery_spec f db) as [_ Q].
  destruct (ApplySortAndPagination_spec f db) as [_ A].
  split; [exact Q|]. split; [exact A|]. split; [|split].
  - rewrite QueryWithFilter_paths. cbv zeta.
    now destruct (fst (snd (run_Find _ (wconn w)))).
  - rewrite QueryWithPagination_paths. cbv zeta.
    destruct (fst (snd (run_Count _ (wconn w)))); [reflexivity|].
    destruct (_ =? 0); [reflexivity|].
    rewrite <- app_assoc.
    now destruct (fst (snd (run_Find _ _))).
  - apply plan_stages_sorted.
Qed.

End RepositoryFacts.

(** ** Concrete runs on the in-memory engine *)

(** C2, at an empty table and at a plan the engine rejects. When the count
    is zero or fails, [QueryWithPagination] returns the page and page size
    as the caller gave them: 0 and 0, or -3 and 1000, where the clamped
    values are 1 and 10, or 1 and 500. *)
Theorem early_returns_keep_raw_bounds :
  snd (QueryWithPagination (X := Mem.externals) (E := Mem.engine) []
         Mem.blank (Mem.world []))
  = ([], 0, 0, 0, None)
  /\ snd (QueryWithPagination (X := Mem.externals) (E := Mem.engine) []
            (set_PageSize (set_Page Mem.blank (-3)) 1000) (Mem.world []))
     = ([], 0, -3, 1000, None)
  /\ snd (QueryWithPagination (X := Mem.externals) (E := Mem.engine) []
            (mkFilter [] "" [] [] "" 0 0 false [mkJoin "roles" "a = b" "left"]
                      [] false "")
            (Mem.world []))
     = ([], 0, 0, 0, Some Mem.unsupported)
  /\ (clamp_page 0, clamp_size 0, clamp_page (-3), clamp_size 1000)
     = (1, 10, 1, 500).
Proof. repeat split. Qed.

Lemma listing_is_truncated : ~ listing_returns_all_matching.
Proof.
  intro H. specialize (H Mem.blank Mem.eleven (firstn 10 Mem.eleven) eq_refl).
  apply (f_equal (@length Mem.row)) in H.
  vm_compute in H. discriminate H.
Qed.

Lemma blank_field_is_not_sorted : ~ sort_rule_as_stated.
Proof.
  intro H.
  destruct (H (mkFilter [] "" [] [""] "-" 0 0 false [] [] false "") "-")
    as [_ B].
  - discriminate.
  - apply B; [|reflexivity]. right. now left.
Qed.

Lemma typed_pair_is_dropped : ~ between_rule_as_stated.
Proof.
  intro H.
  destruct (H Mem.blank "age" (VStrings ["1"; "9"])) as [A _].
  destruct (A eq_refl) as [a0 [a1 B]]. discriminate B.
Qed.

Lemma zero_count_short_circuit_witness :
  run_Count (Engine := Mem.engine)
            ([] ++ predicate_plan (X := Mem.externals) Mem.blank)%list
            (wconn (Mem.world []))
  = (@nil Mem.row, (None, 0))
  /\ QueryWithPagination (X := Mem.externals) (E := Mem.engine) []
                         Mem.blank (Mem.world [])
     = (@mkWorld Mem.row Mem.engine (@nil Mem.row) [QCount []] "",
        Mem.blank, ([], 0, 0, 0, None)).
Proof.
  split; [reflexivity|].
  exact (zero_count_short_circuit (X := Mem.externals) (E := Mem.engine)
           [] Mem.blank (Mem.world []) (@nil Mem.row) eq_refl).
Defined.

Lemma empty_allow_list_witness :
  Filterable Mem.sample = []
  /\ isFilterable Mem.sample "anything" = true
  /\ In (CWhere "id = ?" [VInt 7])
        (snd (PaginationQuery (X := Mem.externals) Mem.sample [])).
Proof.
  split; [reflexivity|].
  destruct (empty_allow_list_admits_all (X := Mem.externals) Mem.sample []
              eq_refl) as [A [_ B]].
  split; [apply A|].
  destruct (B "id" (VInt 7)) as [S _].
  - simpl. auto.
  - now apply S.
Defined.

Lemma sort_token_rule_witness :
  TrimSpace " -name " <> ""
  /\ snd (sort_step (X := Mem.externals) (Mem.sample, []) " -name ")
     = [COrder "name DESC"].
Proof.
  assert (N : TrimSpace " -name " <> "") by discriminate.
  split; [exact N|].
  destruct (sort_token_rule (X := Mem.externals) Mem.sample [] " -name " N)
    as [[_ A] _].
  apply A. split; [discriminate|]. right. simpl. auto.
Defined.

Lemma undecodable_query_witness :
  json_Unmarshal (Externals := Mem.externals)
                 (QueryStr (set_QueryStr Mem.sample "status=active")) = None
  /\ snd (PaginationQuery (X := Mem.externals)
            (set_QueryStr Mem.sample "status=active") [])
     = snd (PaginationQuery (X := Mem.externals) (set_QueryStr Mem.sample "") []).
Proof.
  split; [reflexivity|].
  destruct (undecodable_query_adds_nothing (X := Mem.externals)
              (set_QueryStr Mem.sample "status=active") [] (or_introl eq_refl))
    as [A _].
  exact A.
Defined.

Lemma filter_frame_witness :
  run_Count (Engine := Mem.engine)
            ([] ++ predicate_plan (X := Mem.externals) Mem.blank)%list
            (wconn (Mem.world Mem.eleven))
  = (Mem.eleven, (None, 11))
  /\ 1 <= Page (snd (fst (QueryWithPagination (X := Mem.externals)
                            (E := Mem.engine) [] Mem.blank
                            (Mem.world Mem.eleven))))
  /\ 1 <= PageSize (snd (fst (QueryWithPagination (X := Mem.externals)
                                (E := Mem.engine) [] Mem.blank
                                (Mem.world Mem.eleven)))) <= 500.
Proof.
  split; [reflexivity|].
  destruct (filter_frame (X := Mem.externals) (E := Mem.engine) []
              Mem.blank (Mem.world Mem.eleven)) as [_ [_ [_ [_ A]]]].
  apply (A Mem.eleven 11); [reflexivity|discriminate].
Defined.

(** ** Further properties of the condition compiler *)

Section ConditionFacts.

Context {X : Externals}.

Lemma recordSQL_silent (f : Filter) (d : string) (v : value) :
  Debug f = false -> recordSQL f d v = f.
Proof. intro H. unfold recordSQL. now rewrite H. Qed.

Lemma isFilterable_listed (f : Filter) (e : string * value) :
  Filterable f <> [] -> isFilterable f (fst e) = listed f e.
Proof.
  intro H. unfold isFilterable, listed.
  destruct (Filterable f); [contradiction|reflexivity].
Qed.

(** X1. With a non-empty [Filterable] list, the predicates compiled from a
    condition map are those of the entries whose field is in the list, in
    the order of the map; an entry for any other field leaves the plan and
    the filter exactly as they were. *)
Theorem closed_allow_list_filters_entries (f : Filter) (db : DB)
        (conds : gomap) :
  Filterable f <> [] ->
  snd (applyQueryConditions f db conds)
  = (db ++ flat_map (fun e => shape_clauses (fst e) (snd e))
                    (filter (listed f) conds))%list
  /\ (forall field v, ~ In field (Filterable f) ->
                     condition_step (f, db) (field, v) = (f, db)).
Proof.
  intro H. split.
  - destruct (applyQueryConditions_spec f db conds) as [_ ->]. f_equal.
    induction conds as [|e conds IH]; simpl; [reflexivity|].
    unfold condition_clauses at 1. rewrite (isFilterable_listed f e H).
    destruct (listed f e); simpl; now rewrite IH.
  - intros field v N. unfold condition_step.
    replace (isFilterable f field) with false; [reflexivity|].
    symmetry. change field with (fst (field, v)).
    rewrite (isFilterable_listed f (field, v) H).
    unfold listed. simpl. apply not_true_is_false. intro A.
    apply existsb_exists in A. destruct A as [w [Hw Ew]].
    apply String.eqb_eq in Ew. now subst w.
Qed.

(** X2. A condition whose value is neither a string, int, float64 or bool, nor
    a [[]interface{}] or [[]string], nor a nested map (nil, a uint, a
    [map[string]int], a value of any other type) is skipped: the plan and the
    filter, trace included, stay exactly as they were. *)
Theorem unsupported_value_is_skipped (f : Filter) (db : DB) (field : string)
        (v : value) :
  is_scalar v = false -> is_sequence v = false -> (forall m, v <> VMap m) ->
  condition_step (f, db) (field, v) = (f, db).
Proof.
  intros S Q M. unfold condition_step.
  destruct (isFilterable f field); simpl; [|reflexivity].
  destruct v; try discriminate; try reflexivity.
  now contradiction (M m).
Qed.

(** X3. An operator key outside the nine known ones (the keys are compared
    byte for byte) is skipped: the plan and the filter, trace included, stay
    exactly as they were. *)
Theorem unknown_operator_is_skipped (f : Filter) (db : DB) (field op : string)
        (v : value) :
  ~ In op known_operators ->
  complex_step field (f, db) (op, v) = (f, db).
Proof.
  intro N. unfold complex_step.
  repeat match goal with
         | |- context [(op =? ?k)%string] =>
             destruct (String.eqb_spec op k) as [E|_];
             [exfalso; apply N; rewrite E; simpl; tauto|]
         end.
  reflexivity.
Qed.

(** X4. Each of the eight known operators other than [between] appends
    exactly one predicate: the field followed by the operator's SQL form,
    bound to the operand as it was given, except that [like] binds the
    operand rendered by the verb %v. The operand is not inspected, so [in]
    with a scalar or [gt] with a list still emit. *)
Theorem comparison_operator_emits_one (f : Filter) (db : DB) (field : string)
        (v : value) :
  snd (complex_step field (f, db) ("eq", v))
  = (db ++ [CWhere (field ++ " = ?") [v]])%list
  /\ snd (complex_step field (f, db) ("neq", v))
     = (db ++ [CWhere (field ++ " != ?") [v]])%list
  /\ snd (complex_step field (f, db) ("gt", v))
     = (db ++ [CWhere (field ++ " > ?") [v]])%list
  /\ snd (complex_step field (f, db) ("gte", v))
     = (db ++ [CWhere (field ++ " >= ?") [v]])%list
  /\ snd (complex_step field (f, db) ("lt", v))
     = (db ++ [CWhere (field ++ " < ?") [v]])%list
  /\ snd (complex_step field (f, db) ("lte", v))
     = (db ++ [CWhere (field ++ " <= ?") [v]])%list
  /\ snd (complex_step field (f, db) ("like", v))
     = (db ++ [CWhere (field ++ " LIKE ?") [VString (fmt_v v)]])%list
  /\ snd (complex_step field (f, db) ("in", v))
     = (db ++ [CWhere (field ++ " IN (?)") [v]])%list.
Proof.
  repeat split.
Qed.

Lemma lower_byte_letter (c : ascii) :
  Ascii.eqb (lower_byte c) "l" = either c "l" "L"
  /\ Ascii.eqb (lower_byte c) "e" = either c "e" "E"
  /\ Ascii.eqb (lower_byte c) "f" = either c "f" "F"
  /\ Ascii.eqb (lower_byte c) "t" = either c "t" "T".
Proof.
  destruct c as [[] [] [] [] [] [] [] []]; vm_compute; repeat split.
Qed.

Lemma ToLower_left (s : string) :
  (ToLower s =? "left")%string = spelled_left s.
Proof.
  destruct s as [|a [|b [|c [|d [|e s]]]]]; try reflexivity.
  - simpl. destruct (Ascii.eqb (lower_byte a) "l"); reflexivity.
  - simpl. destruct (Ascii.eqb (lower_byte a) "l"); [|reflexivity].
    destruct (Ascii.eqb (lower_byte b) "e"); reflexivity.
  - simpl. destruct (Ascii.eqb (lower_byte a) "l"); [|reflexivity].
    destruct (Ascii.eqb (lower_byte b) "e"); [|reflexivity].
    destruct (Ascii.eqb (lower_byte c) "f"); reflexivity.
  - unfold spelled_left. simpl.
    destruct (lower_byte_letter a) as [-> _].
    destruct (lower_byte_letter b) as [_ [-> _]].
    destruct (lower_byte_letter c) as [_ [_ [-> _]]].
    destruct (lower_byte_letter d) as [_ [_ [_ ->]]].
    destruct (either a "l" "L"); [|reflexivity].
    destruct (either b "e" "E"); [|reflexivity].
    destruct (either c "f" "F"); [|reflexivity].
    destruct (either d "t" "T"); reflexivity.
  - unfold spelled_left. simpl.
    destruct (Ascii.eqb (lower_byte a) "l"); [|reflexivity].
    destruct (Ascii.eqb (lower_byte b) "e"); [|reflexivity].
    destruct (Ascii.eqb (lower_byte c) "f"); [|reflexivity].
    destruct (Ascii.eqb (lower_byte d) "t"); reflexivity.
Qed.

(** X5. A join is compiled to a LEFT JOIN exactly when its type is the word
    left in any mix of upper and lower case; every other type, the empty
    string included, gives an INNER JOIN. Either way the step appends that
    one clause. *)
Theorem join_kind_by_spelling (f : Filter) (db : DB) (j : JoinConfig) :
  snd (join_step (f, db) j)
  = (db ++ [CJoin ((if spelled_left (JoinType j)
                    then "LEFT JOIN " else "INNER JOIN ")
                   ++ Table j ++ " ON " ++ On j)])%list.
Proof.
  destruct (join_step_spec f db j) as [_ ->]. unfold join_clause.
  now rewrite ToLower_left.
Qed.

End ConditionFacts.

(** ** The trace *)

Section TraceFacts.

Context {X : Externals}.

Lemma core_Debug (f g : Filter) : core g = core f -> Debug g = Debug f.
Proof.
  intro H. change (Debug (core g) = Debug (core f)). now rewrite H.
Qed.

Lemma traced_refl (f : Filter) : traced f f [].
Proof.
  repeat split. exists []. rewrite app_nil_r. split; [reflexivity|].
  now destruct (Debug f).
Qed.

Lemma traced_record (f : Filter) (d : string) (v : value) (c : clause) :
  traced f (recordSQL f d v) [c].
Proof.
  split; [apply recordSQL_core|]. unfold recordSQL.
  destruct (Debug f) eqn:D; simpl.
  - split; [reflexivity|]. eexists. split; [reflexivity|]. reflexivity.
  - split; [reflexivity|]. exists []. now rewrite app_nil_r.
Qed.

Lemma traced_trans (f g h : Filter) (cs ds : list clause) :
  traced f g cs -> traced g h ds -> traced f h (cs ++ ds).
Proof.
  intros [C1 [F1 [l1 [R1 L1]]]] [C2 [F2 [l2 [R2 L2]]]].
  split; [congruence|]. split; [congruence|].
  exists (l1 ++ l2)%list. split.
  - now rewrite R2, R1, app_assoc.
  - rewrite (core_Debug f g C1) in L2. rewrite !length_app, L1, L2.
    now destruct (Debug f).
Qed.

Lemma fold_traced {A : Type} (step : Filter * DB -> A -> Filter * DB)
      (emit : Filter -> A -> list clause) :
  (forall f db e, traced f (fst (step (f, db) e)) (emit f e)) ->
  (forall f g e, core f = core g -> emit f e = emit g e) ->
  forall l f db, traced f (fst (fold_left step l (f, db))) (flat_map (emit f) l).
Proof.
  intros Hstep Hemit l. induction l as [|e l IH]; intros f db; simpl.
  - apply traced_refl.
  - pose proof (Hstep f db e) as S.
    destruct (step (f, db) e) as [f1 db1]. simpl in S.
    apply (traced_trans f f1); [assumption|].
    replace (flat_map (emit f) l) with (flat_map (emit f1) l); [apply IH|].
    apply flat_map_ext. intro a. apply Hemit. now destruct S.
Qed.

Lemma complex_step_traced (field : string) (f : Filter) (db : DB)
      (e : string * value) :
  traced f (fst (complex_step field (f, db) e)) (operator_clauses field e).
Proof.
  destruct e as [op v]. unfold complex_step, operator_clauses. simpl.
  repeat match goal with
         | |- context [(op =? ?k)%string] =>
             destruct (op =? k)%string eqn:E;
             [apply String.eqb_eq in E; subst op; simpl | clear E]
         end;
    try apply traced_record; try apply traced_refl.
  destruct v as [| ? | ? | ? | ? | ? | l | ? | ? | ? | ?];
    try apply traced_refl.
  destruct l as [|a0 [|a1 [|a2 l]]];
    try apply traced_refl. apply traced_record.
Qed.

Lemma applyComplexCondition_traced (f : Filter) (db : DB) (field : string)
      (conds : gomap) :
  traced f (fst (applyComplexCondition f db field conds))
         (flat_map (operator_clauses field) conds).
Proof.
  unfold applyComplexCondition.
  apply (fold_traced (complex_step field) (fun _ => operator_clauses field)).
  - intros. apply complex_step_traced.
  - reflexivity.
Qed.

Lemma condition_step_traced (f : Filter) (db : DB) (e : string * value) :
  traced f (fst (condition_step (f, db) e)) (condition_clauses f e).
Proof.
  destruct e as [field v]. unfold condition_step, condition_clauses. simpl.
  destruct (isFilterable f field); simpl; [|apply traced_refl].
  unfold shape_clauses.
  destruct v; simpl; try apply traced_record; try apply traced_refl.
  apply applyComplexCondition_traced.
Qed.

Lemma applyQueryConditions_traced (f : Filter) (db : DB) (conds : gomap) :
  traced f (fst (applyQueryConditions f db conds))
         (flat_map (condition_clauses f) conds).
Proof.
  unfold applyQueryConditions.
  apply (fold_traced condition_step condition_clauses).
  - intros. apply condition_step_traced.
  - intros. now apply condition_clauses_core.
Qed.

Lemma joins_traced (f : Filter) (db : DB) (js : list JoinConfig) :
  traced f (fst (fold_left join_step js (f, db))) (map join_clause js).
Proof.
  replace (map join_clause js) with (flat_map (fun j => [join_clause j]) js)
    by (induction js as [|j js IH]; simpl; [reflexivity|now rewrite IH]).
  apply (fold_traced join_step (fun _ j => [join_clause j])).
  - intros g d j. unfold join_step.
    destruct (ToLower (JoinType j) =? "left")%string; apply traced_record.
  - reflexivity.
Qed.

Lemma sort_step_traced (f : Filter) (db : DB) (s : string) :
  traced f (fst (sort_step (f, db) s)) (sort_clauses f s).
Proof.
  unfold sort_step, sort_clauses.
  destruct (TrimSpace s =? "")%string; [apply traced_refl|].
  destruct (HasPrefix_dash (TrimSpace s)) eqn:D;
    [|rewrite (TrimPrefix_no_dash _ D)];
    destruct (isSortable f _); simpl;
    try apply traced_record; apply traced_refl.
Qed.

Lemma traced_same (f g : Filter) (cs : list clause) :
  traced f g cs -> Debug f = false -> g = f.
Proof.
  intros [C [F [l [R L]]]] D. rewrite D in L.
  destruct l; [|discriminate]. rewrite app_nil_r in R.
  destruct f, g. unfold core in C. simpl in *.
  injection C as -> -> -> -> -> -> -> -> -> ->. now subst.
Qed.

Lemma PaginationQuery_traced (f : Filter) (db : DB) :
  traced (if Debug f then set_sqlRecords f [] else f)
         (fst (PaginationQuery f db)) (predicate_plan f).
Proof.
  unfold PaginationQuery, predicate_plan, unscoped_clauses, dynamic_conditions.
  set (f0 := if Debug f then set_sqlRecords f [] else f).
  assert (H0 : core f0 = core f) by (unfold f0; now destruct (Debug f)).
  assert (E0 : forall e, condition_clauses f e = condition_clauses f0 e)
    by (intro e; apply condition_clauses_core; now rewrite H0).
  replace (Unscoped f) with (Unscoped f0)
    by (change (Unscoped (core f0) = Unscoped (core f)); now rewrite H0).
  replace (Joins f) with (Joins f0)
    by (change (Joins (core f0) = Joins (core f)); now rewrite H0).
  replace (Filters f) with (Filters f0)
    by (change (Filters (core f0) = Filters (core f)); now rewrite H0).
  replace (QueryStr f) with (QueryStr f0)
    by (change (QueryStr (core f0) = QueryStr (core f)); now rewrite H0).
  rewrite (flat_map_ext _ _ E0). rewrite (flat_map_ext _ _ E0).
  clearbody f0. clear H0 E0 f.
  set (st1 := if Unscoped f0 then _ else _).
  assert (T1 : traced f0 (fst st1) (if Unscoped f0 then [CUnscoped] else [])).
  { unfold st1. destruct (Unscoped f0); [apply traced_record|apply traced_refl]. }
  apply (traced_trans f0 (fst st1)); [exact T1|].
  destruct st1 as [f1 db1]. simpl in T1. simpl fst.
  assert (C1 : core f1 = core f0) by apply T1.
  replace (Joins f1) with (Joins f0)
    by (change (Joins (core f0) = Joins (core f1)); now rewrite C1).
  set (st2 := if (0 <? length (Joins f0))%nat then _ else _).
  assert (T2 : traced f1 (fst st2) (map join_clause (Joins f0))).
  { unfold st2. destruct (Joins f0) as [|j js]; [apply traced_refl|].
    change (0 <? length (j :: js))%nat with true. cbv iota.
    apply joins_traced. }
  apply (traced_trans f1 (fst st2)); [exact T2|].
  destruct st2 as [f2 db2]. simpl in T2. simpl fst.
  assert (C2 : core f2 = core f0) by (destruct T2 as [C _]; congruence).
  replace (Filters f2) with (Filters f0)
    by (change (Filters (core f0) = Filters (core f2)); now rewrite C2).
  set (st3 := if (0 <? length (Filters f0))%nat then _ else _).
  assert (T3 : traced f2 (fst st3) (flat_map (condition_clauses f0) (Filters f0))).
  { unfold st3. destruct (Filters f0) as [|e es]; [apply traced_refl|].
    change (0 <? length (e :: es))%nat with true. cbv iota.
    rewrite (flat_map_ext (condition_clauses f0) (condition_clauses f2));
      [apply applyQueryConditions_traced|].
    intro a. apply condition_clauses_core. now rewrite C2. }
  apply (traced_trans f2 (fst st3)); [exact T3|].
  destruct st3 as [f3 db3]. simpl in T3. simpl fst.
  assert (C3 : core f3 = core f0) by (destruct T3 as [C _]; congruence).
  replace (QueryStr f3) with (QueryStr f0)
    by (change (QueryStr (core f0) = QueryStr (core f3)); now rewrite C3).
  destruct (QueryStr f0 =? "")%string; simpl; [apply traced_refl|].
  destruct (json_Unmarshal (QueryStr f0)) as [m|]; [|apply traced_refl].
  rewrite (flat_map_ext (condition_clauses f0) (condition_clauses f3));
    [apply applyQueryConditions_traced|].
  intro a. apply condition_clauses_core. now rewrite C3.
Qed.

Lemma filter_ext (g h : Filter) :
  core g = core h -> sqlRecords g = sqlRecords h -> finalSQL g = finalSQL h ->
  g = h.
Proof.
  intros C R F. destruct g, h. unfold core in C. simpl in *.
  injection C as -> -> -> -> -> -> -> -> -> ->. now subst.
Qed.

Lemma sort_plan_core (f g : Filter) :
  core f = core g -> sort_plan f = sort_plan g.
Proof.
  intro H. unfold sort_plan, sort_tokens.
  replace (Sort f) with (Sort g)
    by (change (Sort (core g) = Sort (core f)); now rewrite H).
  replace (Page f) with (Page g)
    by (change (Page (core g) = Page (core f)); now rewrite H).
  replace (PageSize f) with (PageSize g)
    by (change (PageSize (core g) = PageSize (core f)); now rewrite H).
  f_equal. apply flat_map_ext. intro a. now apply sort_clauses_core.
Qed.

Lemma ApplySortAndPagination_trace (f : Filter) (db : DB) :
  (exists lines,
      sqlRecords (fst (ApplySortAndPagination f db))
      = (sqlRecords f ++ lines)%list
      /\ length lines
         = if Debug f then S (length (flat_map (sort_clauses f) (sort_tokens f)))
           else 0%nat)
  /\ finalSQL (fst (ApplySortAndPagination f db))
     = if Debug f then dry_run_SQL (snd (ApplySortAndPagination f db))
       else finalSQL f.
Proof.
  unfold ApplySortAndPagination, sort_tokens.
  set (st := if negb (Sort f =? "")%string then _ else _).
  assert (T : traced f (fst st)
                     (flat_map (sort_clauses f)
                        (if (Sort f =? "")%string then []
                         else split_comma (Sort f)))).
  { unfold st. destruct (Sort f =? "")%string; simpl; [apply traced_refl|].
    apply (fold_traced sort_step sort_clauses).
    - intros. apply sort_step_traced.
    - intros. now apply sort_clauses_core. }
  destruct st as [f1 db1]. simpl in T.
  destruct T as [C [F [l [R L]]]].
  pose proof (core_Debug f f1 C) as D.
  destruct f1 as [fa q fs so s p ps u j r dbg fin]. simpl in *. subst.
  unfold recordSQL. simpl.
  destruct (p <=? 0); simpl;
    destruct (ps <=? 0); simpl;
    try destruct (ps >? 500); simpl;
    destruct (Debug f); simpl;
    (split; [|reflexivity]);
    first [ exists l; now split
          | eexists; split;
            [rewrite <- app_assoc; reflexivity
            |rewrite length_app, L; simpl; lia] ].
Qed.

(** X6. With [Debug] off the compiler leaves the filter alone:
    [PaginationQuery] returns it unchanged, trace fields included, and
    [ApplySortAndPagination] changes nothing but the page and the page size,
    which it sets to the clamped values. *)
Theorem silent_pipeline_keeps_filter (f : Filter) (db : DB) :
  Debug f = false ->
  fst (PaginationQuery f db) = f
  /\ fst (ApplySortAndPagination f db)
     = set_PageSize (set_Page f (clamp_page (Page f)))
                    (clamp_size (PageSize f)).
Proof.
  intro D. split.
  - pose proof (PaginationQuery_traced f db) as T. rewrite D in T.
    now apply (traced_same _ _ _ T).
  - destruct (ApplySortAndPagination_spec f db) as [C _].
    destruct (ApplySortAndPagination_trace f db) as [[l [R L]] F].
    rewrite D in L, F. destruct l; [|discriminate]. rewrite app_nil_r in R.
    apply filter_ext; [exact C|exact R|exact F].
Qed.

(** X7. With [Debug] on, every clause is recorded once. [PaginationQuery]
    starts the trace afresh, whatever it held, and leaves one line per clause
    it appended; [ApplySortAndPagination] adds one line per order clause and
    a single line for the offset and limit together, and stores the dry-run
    rendering of the final plan as the preview. *)
Theorem debug_trace_records_every_clause (f : Filter) (db : DB)
        (old : list string) :
  Debug f = true ->
  length (sqlRecords (fst (PaginationQuery f db))) = length (predicate_plan f)
  /\ PaginationQuery (set_sqlRecords f old) db = PaginationQuery f db
  /\ length (sqlRecords (fst (compile f db)))
     = (length (predicate_plan f)
        + length (flat_map (sort_clauses f) (sort_tokens f)) + 1)%nat
  /\ finalSQL (fst (compile f db)) = dry_run_SQL (snd (compile f db)).
Proof.
  intro D.
  pose proof (PaginationQuery_traced f db) as T. rewrite D in T.
  destruct T as [C [_ [l [R L]]]]. simpl in R, L. rewrite D in L.
  assert (C1 : core (fst (PaginationQuery f db)) = core f) by exact C.
  split; [now rewrite R, L|]. split.
  { unfold PaginationQuery. simpl Debug. rewrite D. reflexivity. }
  unfold compile. destruct (PaginationQuery f db) as [f1 db1]. simpl in *.
  destruct (ApplySortAndPagination_trace f1 db1) as [[l2 [R2 L2]] F2].
  rewrite (core_Debug f f1 C1), D in L2, F2. split.
  - rewrite R2, length_app, R, L, L2.
    replace (sort_tokens f1) with (sort_tokens f)
      by (unfold sort_tokens;
          change (Sort f) with (Sort (core f));
          change (Sort f1) with (Sort (core f1)); now rewrite C1).
    rewrite (flat_map_ext (sort_clauses f1) (sort_clauses f)
               (fun a => sort_clauses_core f1 f a C1)).
    lia.
  - exact F2.
Qed.

(** X8. While the page is at most 2^54, the offset of the plan is exactly
    (page - 1) * pageSize on the clamped values and is not negative: the
    64-bit multiplication cannot wrap. *)
Theorem offset_is_exact (f : Filter) (db : DB) :
  Page f <= 2 ^ 54 ->
  snd (ApplySortAndPagination f db)
  = (db ++ flat_map (sort_clauses f) (sort_tokens f)
        ++ [COffset ((clamp_page (Page f) - 1) * clamp_size (PageSize f));
            CLimit (clamp_size (PageSize f))])%list
  /\ 0 <= (clamp_page (Page f) - 1) * clamp_size (PageSize f).
Proof.
  intro H. destruct (ApplySortAndPagination_spec f db) as [_ ->].
  unfold sort_plan, int_wrap.
  change (2 ^ 54) with 18014398509481984 in H.
  change (2 ^ 63) with 9223372036854775808.
  change (2 ^ 64) with 18446744073709551616.
  assert (P : 1 <= clamp_page (Page f) <= 18014398509481984).
  { unfold clamp_page. destruct (Z.leb_spec (Page f) 0); lia. }
  assert (S : 1 <= clamp_size (PageSize f) <= 500).
  { unfold clamp_size. destruct (Z.leb_spec (PageSize f) 0); [lia|].
    destruct (PageSize f >? 500) eqn:G; [lia|]. rewrite Z.gtb_ltb in G.
    apply Z.ltb_ge in G. lia. }
  assert (B : 0 <= (clamp_page (Page f) - 1) * clamp_size (PageSize f)
              < 18014398509481984 * 500) by nia.
  split; [|lia].
  rewrite Z.mod_small by lia. now rewrite Z.add_simpl_r.
Qed.

Lemma clamp_page_idempotent (p : Z) : clamp_page (clamp_page p) = clamp_page p.
Proof.
  unfold clamp_page. destruct (Z.leb_spec p 0); [reflexivity|].
  destruct (Z.leb_spec p 0); [lia|reflexivity].
Qed.

Lemma clamp_size_idempotent (n : Z) : clamp_size (clamp_size n) = clamp_size n.
Proof.
  unfold clamp_size. destruct (Z.leb_spec n 0); [reflexivity|].
  destruct (n >? 500) eqn:G; [reflexivity|].
  destruct (Z.leb_spec n 0); [lia|]. now rewrite G.
Qed.

(** X9. The clamping that [ApplySortAndPagination] writes back is
    idempotent: applied to the filter it has returned, on any plan, it
    appends the same order, offset and limit clauses as the first time and
    leaves the page and the page size as they are. *)
Theorem sort_stage_is_idempotent (f : Filter) (db db' : DB) :
  let g := fst (ApplySortAndPagination f db) in
  (exists appended,
      snd (ApplySortAndPagination f db) = (db ++ appended)%list
      /\ snd (ApplySortAndPagination g db') = (db' ++ appended)%list)
  /\ Page (fst (ApplySortAndPagination g db')) = Page g
  /\ PageSize (fst (ApplySortAndPagination g db')) = PageSize g.
Proof.
  cbv zeta.
  destruct (ApplySortAndPagination_spec f db) as [C P].
  set (g := fst (ApplySortAndPagination f db)) in *.
  destruct (ApplySortAndPagination_spec g db') as [C' P'].
  assert (R : Sortable g = Sortable f /\ Sort g = Sort f
              /\ Page g = clamp_page (Page f)
              /\ PageSize g = clamp_size (PageSize f)).
  { repeat split;
      match goal with
      | |- ?p g = _ => change (p g) with (p (core g))
      end; now rewrite C. }
  destruct R as [R4 [R5 [R8 R9]]].
  assert (B : forall a, sort_clauses g a = sort_clauses f a).
  { intro a. unfold sort_clauses, isSortable. now rewrite R4. }
  assert (S : sort_plan g = sort_plan f).
  { unfold sort_plan, sort_tokens. rewrite R5, R8, R9.
    rewrite (flat_map_ext _ _ B).
    now rewrite clamp_page_idempotent, clamp_size_idempotent. }
  split; [|split].
  - exists (sort_plan f). split; [exact P|]. now rewrite P', S.
  - change (Page (fst (ApplySortAndPagination g db')))
      with (Page (core (fst (ApplySortAndPagination g db')))).
    rewrite C'. simpl. now rewrite R8, clamp_page_idempotent.
  - change (PageSize (fst (ApplySortAndPagination g db')))
      with (PageSize (core (fst (ApplySortAndPagination g db')))).
    rewrite C'. simpl. now rewrite R9, clamp_size_idempotent.
Qed.

End TraceFacts.

(** ** Further properties of the listing and by-id functions *)

Section ListingFacts.

Context {X : Externals} {T : Type} {E : Engine T}.

Lemma predicate_plan_stage (f : Filter) :
  Forall (fun c => stage c <= 2) (predicate_plan f).
Proof.
  unfold predicate_plan, unscoped_clauses. rewrite !Forall_app. repeat split.
  - destruct (Unscoped f); repeat constructor. simpl. lia.
  - apply Forall_forall. intros c Hc. apply in_map_iff in Hc.
    destruct Hc as [j [<- _]]. simpl. lia.
  - eapply Forall_impl; [|apply condition_clauses_stage]. simpl. intros; lia.
  - eapply Forall_impl; [|apply condition_clauses_stage]. simpl. intros; lia.
Qed.

(** X10. When the count succeeds with a total other than zero and the fetch
    succeeds, [QueryWithPagination] returns the fetched records, the counted
    total and the clamped page and page size. It sends two statements: the
    count on the predicates alone, which carry no order, offset or limit
    clause, then the fetch on the same plan extended by the sort and
    pagination clauses. *)
Theorem paginated_listing_counts_then_fetches
        (db : DB) (f : Filter) (w : World T) (c c2 : conn) (n : Z)
        (rows : list T) :
  run_Count (db ++ predicate_plan f)%list (wconn w) = (c, (None, n)) ->
  n <> 0 ->
  run_Find (db ++ predicate_plan f ++ sort_plan f)%list c = (c2, (None, rows)) ->
  QueryWithPagination db f w
  = (mkWorld c2
       (wcalls w ++ [QCount (db ++ predicate_plan f)%list;
                     QFind (db ++ predicate_plan f ++ sort_plan f)%list])%list
       (if Debug f then wstdout w ++ PrintSQLs (fst (compile f db))
        else wstdout w),
     fst (compile f db),
     (rows, n, clamp_page (Page f), clamp_size (PageSize f), None))
  /\ Forall (fun cl => stage cl <= 2) (predicate_plan f).
Proof.
  intros HC N HF. split; [|apply predicate_plan_stage].
  rewrite QueryWithPagination_paths. cbv zeta. rewrite HC. simpl.
  apply Z.eqb_neq in N. rewrite N. rewrite <- app_assoc, HF. reflexivity.
Qed.

(** X11. When the count fails, [QueryWithPagination] returns the engine's error
    as it is, with no record and a total of 0, and the count is the only
    statement sent: nothing is fetched. *)
Theorem count_error_is_returned
        (db : DB) (f : Filter) (w : World T) (c : conn) (e : error) (n : Z) :
  run_Count (db ++ predicate_plan f)%list (wconn w) = (c, (Some e, n)) ->
  QueryWithPagination db f w
  = (mkWorld c (wcalls w ++ [QCount (db ++ predicate_plan f)%list])%list
             (wstdout w),
     fst (PaginationQuery f db),
     ([], 0, Page f, PageSize f, Some e)).
Proof.
  intro HC. rewrite QueryWithPagination_paths. cbv zeta. now rewrite HC.
Qed.

(** X12. When the count succeeds with a total other than zero but the fetch
    fails, [QueryWithPagination] returns the fetch error with no record and
    a total of 0: the total already counted is not reported. *)
Theorem fetch_error_drops_the_total
        (db : DB) (f : Filter) (w : World T) (c c2 : conn) (n : Z)
        (e : error) (rows : list T) :
  run_Count (db ++ predicate_plan f)%list (wconn w) = (c, (None, n)) ->
  n <> 0 ->
  run_Find (db ++ predicate_plan f ++ sort_plan f)%list c
  = (c2, (Some e, rows)) ->
  snd (QueryWithPagination db f w)
  = ([], 0, clamp_page (Page f), clamp_size (PageSize f), Some e).
Proof.
  intros HC N HF.
  rewrite QueryWithPagination_paths. cbv zeta. rewrite HC. simpl.
  apply Z.eqb_neq in N. rewrite N. rewrite <- app_assoc, HF. reflexivity.
Qed.

(** X13. [QueryWithFilter] writes the trace of the compiled filter to standard
    output when [Debug] is on and nothing when it is off;
    [QueryWithPagination] writes nothing, or with [Debug] on that same
    trace. *)
Theorem listings_print_only_in_debug (db : DB) (f : Filter) (w : World T) :
  wstdout (fst (fst (QueryWithFilter db f w)))
  = (if Debug f then wstdout w ++ PrintSQLs (fst (compile f db))
     else wstdout w)
  /\ (wstdout (fst (fst (QueryWithPagination db f w))) = wstdout w
      \/ (Debug f = true
          /\ wstdout (fst (fst (QueryWithPagination db f w)))
             = wstdout w ++ PrintSQLs (fst (compile f db)))).
Proof.
  rewrite QueryWithFilter_paths, QueryWithPagination_paths. cbv zeta. split.
  - now destruct (fst (snd (run_Find _ (wconn w)))).
  - destruct (fst (snd (run_Count _ (wconn w)))); [now left|].
    destruct (_ =? 0); [now left|].
    destruct (Debug f); [right|left];
      now destruct (fst (snd (run_Find _ _))).
Qed.

Lemma limit_of_plan (body : DB) (o n : Z) :
  Mem.limit_of (body ++ [COffset o; CLimit n])%list = Some n.
Proof.
  unfold Mem.limit_of. now rewrite fold_left_app.
Qed.

Lemma sort_plan_limit (f : Filter) (body : DB) :
  Mem.limit_of (body ++ sort_plan f)%list = Some (clamp_size (PageSize f)).
Proof.
  unfold sort_plan. rewrite app_assoc. apply limit_of_plan.
Qed.

(** X14. On an engine that honours LIMIT, a listing never returns more records
    than the clamped page size, hence never more than 500, through
    [QueryWithFilter] as through [QueryWithPagination]. *)
Theorem listing_returns_at_most_a_page (db : DB) (f : Filter) (w : World T) :
  honours_limit E ->
  Z.of_nat (length (fst (snd (QueryWithFilter db f w))))
  <= clamp_size (PageSize f) <= 500
  /\ Z.of_nat (length (fst (fst (fst (fst (snd (QueryWithPagination db f w)))))))
     <= clamp_size (PageSize f).
Proof.
  intro H.
  pose proof (clamp_size_bounds (PageSize f)) as B.
  assert (L : forall body c,
             Z.of_nat (length (snd (snd (run_Find (body ++ sort_plan f)%list c))))
             <= clamp_size (PageSize f)).
  { intros body c. apply H; [apply sort_plan_limit|lia]. }
  split.
  - split; [|lia]. rewrite QueryWithFilter_paths. cbv zeta.
    rewrite app_assoc.
    destruct (fst (snd (run_Find _ (wconn w)))); simpl; [lia|apply L].
  - rewrite QueryWithPagination_paths. cbv zeta.
    destruct (fst (snd (run_Count _ (wconn w)))); simpl; [lia|].
    destruct (_ =? 0); simpl; [lia|].
    destruct (fst (snd (run_Find _ _))) eqn:F; simpl; [lia|apply L].
Qed.

(** X15. With an id other than zero, each of the three writers sends the engine
    exactly one statement: [UpdateByIdWithMap] the update on the plan
    restricted to the id, [DeleteById] the update of the column [is_deleted]
    to 1 on that plan, [SoftDeleteById] the delete by primary key on the
    plan as given. The call succeeds exactly when the engine reports no
    error and at least one affected row; an engine error is returned as it
    is, and no error with zero rows gives [ErrRecordNotFound]. *)
Theorem writers_need_an_affected_row (db : DB) (id : N) (updates : gomap)
        (w : World T) :
  id <> 0%N ->
  let byid := (db ++ [CWhere "id = ?" [VUint id]])%list in
  let verdict (r : option error * Z) :=
    match fst r with
    | Some e => Some e
    | None => if snd r =? 0 then Some ErrRecordNotFound else None
    end in
  UpdateByIdWithMap db id updates w
  = (mkWorld (fst (run_Updates byid updates (wconn w)))
             (wcalls w ++ [QUpdates byid updates])%list (wstdout w),
     verdict (snd (run_Updates byid updates (wconn w))))
  /\ DeleteById db id w
     = (mkWorld (fst (run_UpdateColumn byid "is_deleted" (VInt 1) (wconn w)))
                (wcalls w ++ [QUpdateColumn byid "is_deleted" (VInt 1)])%list
                (wstdout w),
        verdict (snd (run_UpdateColumn byid "is_deleted" (VInt 1) (wconn w))))
  /\ SoftDeleteById db id w
     = (mkWorld (fst (run_Delete db id (wconn w)))
                (wcalls w ++ [QDelete db id])%list (wstdout w),
        verdict (snd (run_Delete db id (wconn w))))
  /\ (forall r, verdict r = None <-> fst r = None /\ snd r <> 0).
Proof.
  intro N. apply N.eqb_neq in N. cbv zeta.
  unfold UpdateByIdWithMap, DeleteById, SoftDeleteById, issue, affected,
    db_Where, db_Model.
  rewrite N. repeat split.
  - now destruct (run_Updates _ updates (wconn w)).
  - now destruct (run_UpdateColumn _ "is_deleted" (VInt 1) (wconn w)).
  - now destruct (run_Delete db id (wconn w)).
  - destruct r as [[e|] n]; simpl in *; [discriminate|reflexivity].
  - destruct r as [[e|] n]; simpl in *; [discriminate|].
    destruct (Z.eqb_spec n 0); [discriminate|assumption].
  - intros [A B]. destruct r as [[e|] n]; simpl in *; [discriminate|].
    destruct (Z.eqb_spec n 0); [contradiction|reflexivity].
Qed.

(** X16. With an id other than zero, [GetInfoById] sends the engine one
    statement, the lookup of the last row of the plan restricted to the id.
    It returns the record found, or the engine's error as it is and then no
    record, whatever the engine left in the destination. *)
Theorem GetInfoById_looks_up_once (db : DB) (id : N) (w : World T) :
  id <> 0%N ->
  let byid := (db ++ [CWhere "id = ?" [VUint id]])%list in
  GetInfoById db id w
  = (mkWorld (fst (run_Last byid (wconn w))) (wcalls w ++ [QLast byid])%list
             (wstdout w),
     match fst (snd (run_Last byid (wconn w))) with
     | Some e => (None, Some e)
     | None => (snd (snd (run_Last byid (wconn w))), None)
     end).
Proof.
  intro N. apply N.eqb_neq in N. cbv zeta.
  unfold GetInfoById, issue, db_Where, db_Model. rewrite N.
  now destruct (run_Last _ (wconn w)) as [c [[e|] r]].
Qed.

End ListingFacts.

(** ** Concrete runs for the further properties *)

Lemma Mem_honours_limit : honours_limit Mem.engine.
Proof.
  intros plan t n L N. simpl. unfold Mem.guard.
  destruct (forallb Mem.supported plan); simpl; [|lia].
  unfold Mem.window. rewrite L. apply Z.leb_le in N. rewrite N.
  pose proof (firstn_le_length (Z.to_nat n)
                (if 0 <? Mem.offset_of plan
                 then skipn (Z.to_nat (Mem.offset_of plan)) (Mem.matching plan t)
                 else Mem.matching plan t)) as F.
  apply Z.leb_le in N. lia.
Qed.

Lemma closed_allow_list_witness :
  Filterable (mkFilter ["id"] "" [] [] "" 0 0 false [] [] false "") <> []
  /\ snd (applyQueryConditions (X := Mem.externals)
            (mkFilter ["id"] "" [] [] "" 0 0 false [] [] false "") []
            [("role", VString "admin"); ("id", VInt 7)])
     = [CWhere "id = ?" [VInt 7]].
Proof.
  assert (N : Filterable (mkFilter ["id"] "" [] [] "" 0 0 false [] [] false "")
              <> []) by discriminate.
  split; [exact N|].
  destruct (closed_allow_list_filters_entries (X := Mem.externals)
              (mkFilter ["id"] "" [] [] "" 0 0 false [] [] false "") []
              [("role", VString "admin"); ("id", VInt 7)] N) as [A _].
  exact A.
Defined.

Lemma unsupported_value_witness :
  condition_step (X := Mem.externals) (Mem.sample, []) ("deleted_at", VNil)
  = (Mem.sample, []).
Proof.
  apply (unsupported_value_is_skipped (X := Mem.externals) Mem.sample []
           "deleted_at" VNil eq_refl eq_refl).
  intros m H. discriminate H.
Defined.

Lemma unknown_operator_witness :
  ~ In "EQ" known_operators
  /\ complex_step (X := Mem.externals) "age" (Mem.sample, []) ("EQ", VInt 3)
     = (Mem.sample, []).
Proof.
  assert (N : ~ In "EQ" known_operators).
  { simpl. intros [H|[H|[H|[H|[H|[H|[H|[H|[H|[]]]]]]]]]]; discriminate H. }
  split; [exact N|].
  exact (unknown_operator_is_skipped (X := Mem.externals) Mem.sample []
           "age" "EQ" (VInt 3) N).
Defined.

Lemma silent_pipeline_witness :
  Debug Mem.blank = false
  /\ fst (PaginationQuery (X := Mem.externals) Mem.blank []) = Mem.blank
  /\ fst (ApplySortAndPagination (X := Mem.externals) Mem.blank [])
     = set_PageSize (set_Page Mem.blank 1) 10.
Proof.
  split; [reflexivity|].
  exact (silent_pipeline_keeps_filter (X := Mem.externals) Mem.blank []
           eq_refl).
Defined.

Lemma debug_trace_witness :
  Debug Mem.sample = true
  /\ length (sqlRecords (fst (compile (X := Mem.externals) Mem.sample []))) = 9%nat.
Proof.
  split; [reflexivity|].
  destruct (debug_trace_records_every_clause (X := Mem.externals) Mem.sample []
              [] eq_refl) as [_ [_ [A _]]].
  exact A.
Defined.

Lemma offset_is_exact_witness :
  Page Mem.sample <= 2 ^ 54
  /\ snd (ApplySortAndPagination (X := Mem.externals) Mem.sample [])
     = [COrder "name DESC"; COrder "id ASC"; COffset 20; CLimit 20].
Proof.
  assert (H : Page Mem.sample <= 2 ^ 54) by (simpl; lia).
  split; [exact H|].
  destruct (offset_is_exact (X := Mem.externals) Mem.sample [] H) as [A _].
  exact A.
Defined.

Lemma paginated_listing_witness :
  snd (QueryWithPagination (X := Mem.externals) (E := Mem.engine) []
         Mem.blank (Mem.world Mem.eleven))
  = (firstn 10 Mem.eleven, 11, 1, 10, None).
Proof.
  destruct (paginated_listing_counts_then_fetches
              (X := Mem.externals) (E := Mem.engine) [] Mem.blank
              (Mem.world Mem.eleven) Mem.eleven Mem.eleven 11
              (firstn 10 Mem.eleven) eq_refl) as [A _].
  - discriminate.
  - reflexivity.
  - now rewrite A.
Defined.

Lemma count_error_witness :
  snd (QueryWithPagination (X := Mem.externals) (E := Mem.engine) []
         Mem.sample (Mem.world Mem.eleven))
  = ([], 0, 2, 20, Some Mem.unsupported).
Proof.
  now rewrite (count_error_is_returned (X := Mem.externals) (E := Mem.engine)
                 [] Mem.sample (Mem.world Mem.eleven) Mem.eleven
                 Mem.unsupported 0 eq_refl).
Defined.

Lemma fetch_error_witness :
  snd (QueryWithPagination (X := Mem.externals) (E := Mem.engine) []
         (mkFilter [] "" [] [] "-id" 0 0 false [] [] false "")
         (Mem.world Mem.eleven))
  = ([], 0, 1, 10, Some Mem.unsupported).
Proof.
  apply (fetch_error_drops_the_total (X := Mem.externals) (E := Mem.engine)
           [] (mkFilter [] "" [] [] "-id" 0 0 false [] [] false "")
           (Mem.world Mem.eleven) Mem.eleven Mem.eleven 11 Mem.unsupported []).
  - reflexivity.
  - discriminate.
  - reflexivity.
Defined.

Lemma at_most_a_page_witness :
  Z.of_nat (length (fst (snd (QueryWithFilter (X := Mem.externals)
                                (E := Mem.engine) []
                                (set_PageSize Mem.blank 4)
                                (Mem.world Mem.eleven))))) <= 4.
Proof.
  destruct (listing_returns_at_most_a_page (X := Mem.externals)
              (E := Mem.engine) [] (set_PageSize Mem.blank 4)
              (Mem.world Mem.eleven) Mem_honours_limit) as [[A _] _].
  exact A.
Defined.

Lemma writers_witness :
  snd (SoftDeleteById (E := Mem.engine) [] 7
         (Mem.world Mem.eleven)) = None
  /\ snd (SoftDeleteById (E := Mem.engine) [] 12
            (Mem.world Mem.eleven)) = Some ErrRecordNotFound.
Proof.
  split.
  - assert (N : 7%N <> 0%N) by discriminate.
    destruct (writers_need_an_affected_row (E := Mem.engine) [] 7 [] (Mem.world Mem.eleven) N)
      as [_ [_ [A _]]].
    now rewrite A.
  - assert (N : 12%N <> 0%N) by discriminate.
    destruct (writers_need_an_affected_row (E := Mem.engine) [] 12 [] (Mem.world Mem.eleven) N)
      as [_ [_ [A _]]].
    now rewrite A.
Defined.

Lemma GetInfoById_witness :
  snd (GetInfoById (E := Mem.engine) [] 7
         (Mem.world Mem.eleven)) = (Some [("id", 7)], None).
Proof.
  assert (N : 7%N <> 0%N) by discriminate.
  now rewrite (GetInfoById_looks_up_once (E := Mem.engine) [] 7 (Mem.world Mem.eleven) N).
Defined.
